(** * Inventory ledger and reservation engine

    A shallow embedding of [services/inventory-service/src/services/
    inventoryService.js] (class [InventoryService]) and the properties of the
    ledger stated over it.

    Modelling decisions.
    - JavaScript numbers that hold stock counts, quantities and timestamps are
      integers ([Z]); the service never divides, and the route validators
      declare these fields as integers.
    - The three DynamoDB tables are finite maps keyed by their HASH key
      ([productId], [reservationId], [movementId]).
    - [Date.now()] and [uuidv4()] are oracles: the n-th call returns the n-th
      element of a stream, and the world counts the calls made so far.
    - An [async] method is a function from the world to an outcome (a returned
      value or a thrown exception) and the world it leaves behind.  Storage
      failures (throttling, timeouts) are not modelled; a scan returns the
      whole filtered table (a single page). *)

From Stdlib Require Import ZArith String.
From stdpp Require Import base option list strings gmap fin_maps pretty sorting.

Local Open Scope Z_scope.

(** ** Data model *)

(** The [status] attribute of a reservation item. *)
Inductive ReservationStatus := ACTIVE | CONFIRMED | CANCELLED.

Global Instance ReservationStatus_eq_dec : EqDecision ReservationStatus.
Proof. solve_decision. Defined.

(** An item of the [inventory] table, with the attributes written by
    [initializeInventory]. *)
Record InventoryRecord := mkInventory {
  productId : string;
  sku : string;
  availableStock : Z;
  reservedStock : Z;
  totalStock : Z;
  location : string;
  lowStockThreshold : Z;
  reorderPoint : Z;
  reorderQuantity : Z;
  lastRestocked : Z;
  createdAt : Z;
  updatedAt : Z
}.

(** An item of the [inventory_reservations] table. *)
Record Reservation := mkReservation {
  reservationId : string;
  res_productId : string;
  orderId : string;
  quantity : Z;
  status : ReservationStatus;
  res_createdAt : Z;
  expiresAt : Z
}.

(** An item of the [stock_movements] table.  [mv_type] is one of INITIAL,
    RESTOCK, SALE, RETURN, ADJUSTMENT; the service stores whatever string the
    caller passes. *)
Record StockMovement := mkMovement {
  movementId : string;
  mv_productId : string;
  mv_type : string;
  mv_quantity : Z;
  reference : string;
  timestamp : Z
}.

(** What a JavaScript [throw] (or a rejected promise) carries. *)
Inductive Exception :=
  | Error (message : string)      (* throw new Error(message) *)
  | AwsError (code : string)      (* rejection of a docClient call; error.code *)
  | TypeError (property : string) (* property read on undefined *).

(** [error.code]: undefined unless the document client raised the error. *)
Definition error_code (e : Exception) : option string :=
  match e with AwsError code => Some code | _ => None end.

Inductive Outcome (A : Type) :=
  | Throw (e : Exception)
  | Return (a : A).
Arguments Throw {A} e.
Arguments Return {A} a.

(** The object returned by [confirmReservation] and [cancelReservation]:
    [{ success, reservation }] or [{ success, message }]. *)
Record Receipt := mkReceipt {
  success : bool;
  rc_message : option string;
  rc_reservation : option Reservation
}.

(** The three tables and the number of oracle calls made so far. *)
Record World := mkWorld {
  inventory : gmap string InventoryRecord;
  reservations : gmap string Reservation;
  stockMovements : gmap string StockMovement;
  ticks : nat;     (* calls of Date.now() *)
  uuids : nat      (* calls of uuidv4() *)
}.

Definition with_inventory (f : gmap string InventoryRecord → gmap string InventoryRecord)
    (w : World) : World :=
  mkWorld (f (inventory w)) (reservations w) (stockMovements w) (ticks w) (uuids w).

Definition with_reservations (f : gmap string Reservation → gmap string Reservation)
    (w : World) : World :=
  mkWorld (inventory w) (f (reservations w)) (stockMovements w) (ticks w) (uuids w).

Definition with_stockMovements (f : gmap string StockMovement → gmap string StockMovement)
    (w : World) : World :=
  mkWorld (inventory w) (reservations w) (f (stockMovements w)) (ticks w) (uuids w).

(** Attribute updates of [UpdateExpression: 'SET ...']. *)
Definition set_available_total (a t u : Z) (r : InventoryRecord) : InventoryRecord :=
  mkInventory (productId r) (sku r) a (reservedStock r) t (location r)
    (lowStockThreshold r) (reorderPoint r) (reorderQuantity r) (lastRestocked r)
    (createdAt r) u.

Definition set_available_reserved (a v u : Z) (r : InventoryRecord) : InventoryRecord :=
  mkInventory (productId r) (sku r) a v (totalStock r) (location r)
    (lowStockThreshold r) (reorderPoint r) (reorderQuantity r) (lastRestocked r)
    (createdAt r) u.

Definition set_reserved_total (v t u : Z) (r : InventoryRecord) : InventoryRecord :=
  mkInventory (productId r) (sku r) (availableStock r) v t (location r)
    (lowStockThreshold r) (reorderPoint r) (reorderQuantity r) (lastRestocked r)
    (createdAt r) u.

Definition set_status (s : ReservationStatus) (r : Reservation) : Reservation :=
  mkReservation (reservationId r) (res_productId r) (orderId r) (quantity r) s
    (res_createdAt r) (expiresAt r).

(** ** Asynchronous computations *)

Definition Async (A : Type) : Type := World → Outcome A * World.

Definition resolve {A} (a : A) : Async A := λ w, (Return a, w).

Definition reject {A} (e : Exception) : Async A := λ w, (Throw e, w).

Definition andThen {A B} (m : Async A) (k : A → Async B) : Async B :=
  λ w, match m w with
       | (Return a, w') => k a w'
       | (Throw e, w') => (Throw e, w')
       end.

(** [try { m } catch (error) { h error }] *)
Definition tryCatch {A} (m : Async A) (h : Exception → Async A) : Async A :=
  λ w, match m w with
       | (Return a, w') => (Return a, w')
       | (Throw e, w') => h e w'
       end.

Notation "'await' x <- m ; k" := (andThen m (λ x, k))
  (at level 10, x name, m at level 100, k at level 200,
   format "'[v' 'await'  x  <-  m ; '/' k ']'").
Notation "'await_' m ; k" := (andThen m (λ _, k))
  (at level 10, m at level 100, k at level 200,
   format "'[v' 'await_'  m ; '/' k ']'").

(** ** Sums over a table *)

(** The sum of [f] over the items of a table. *)
Definition sum_table {A} (f : A → Z) (m : gmap string A) : Z :=
  map_fold (λ _ x acc, f x + acc) 0 m.

(** ** The service *)

(** The clock and the identifier generator of the environment: the values
    that successive calls of [Date.now()] and [uuidv4()] return. *)
Class Environment := {
  clock : nat → Z;
  uuid_stream : nat → string
}.

Section Service.
Context `{!Environment}.

Definition Date_now : Async Z :=
  λ w, (Return (clock (ticks w)),
        mkWorld (inventory w) (reservations w) (stockMovements w) (S (ticks w)) (uuids w)).

Definition uuidv4 : Async string :=
  λ w, (Return (uuid_stream (uuids w)),
        mkWorld (inventory w) (reservations w) (stockMovements w) (ticks w) (S (uuids w))).

(** ** The document client *)

(** [docClient.get] on the inventory table: [result.Item], undefined when the
    key is absent. *)
Definition docClient_get_inventory (key : string) : Async (option InventoryRecord) :=
  λ w, (Return (inventory w !! key), w).

Definition docClient_get_reservation (key : string) : Async (option Reservation) :=
  λ w, (Return (reservations w !! key), w).

(** [docClient.put] with [ConditionExpression: 'attribute_not_exists(productId)']:
    one atomic storage operation that writes when the key is free and rejects
    with ConditionalCheckFailedException otherwise. *)
Definition docClient_put_inventory_if_absent (item : InventoryRecord) : Async unit :=
  λ w, match inventory w !! productId item with
       | None => (Return tt, with_inventory (insert (productId item) item) w)
       | Some _ => (Throw (AwsError "ConditionalCheckFailedException"), w)
       end.

(** Unconditional [docClient.put]: replaces whatever the key held. *)
Definition docClient_put_reservation (item : Reservation) : Async unit :=
  λ w, (Return tt, with_reservations (insert (reservationId item) item) w).

Definition docClient_put_stockMovement (item : StockMovement) : Async unit :=
  λ w, (Return tt, with_stockMovements (insert (movementId item) item) w).

(** [docClient.update] with a SET expression: applies [f] to the item stored
    under [key] at the time of the write and, with [ReturnValues: 'ALL_NEW'],
    yields the new item.  Every caller has read the key before and no table is
    ever deleted from, so the item is present; DynamoDB's creation of a
    partial item for an absent key is outside the fixed record shape and is
    left out ([alter] leaves an absent key absent). *)
Definition docClient_update_inventory (key : string)
    (f : InventoryRecord → InventoryRecord) : Async (option InventoryRecord) :=
  λ w, let w' := with_inventory (alter f key) w in (Return (inventory w' !! key), w').

Definition docClient_update_reservation (key : string)
    (f : Reservation → Reservation) : Async unit :=
  λ w, (Return tt, with_reservations (alter f key) w).

(** The filter of [cleanupExpiredReservations]:
    [#status = :status AND expiresAt < :now] with [:status = 'ACTIVE']. *)
Definition expired (now : Z) (r : Reservation) : bool :=
  bool_decide (status r = ACTIVE) && bool_decide (expiresAt r < now).

(** [docClient.scan] on the reservations table: [result.Items]. *)
Definition docClient_scan_reservations (p : Reservation → bool) : Async (list Reservation) :=
  λ w, (Return (map_to_list (filter (λ kv, p kv.2 = true) (reservations w))).*2, w).

(** ** InventoryService *)

Definition getInventory (productId : string) : Async (option InventoryRecord) :=
  docClient_get_inventory productId.

Definition logStockMovement (productId type : string) (quantity : Z)
    (reference : string) : Async StockMovement :=
  await movementId <- uuidv4;
  await timestamp <- Date_now;
  let movement := mkMovement movementId productId type quantity reference timestamp in
  await_ docClient_put_stockMovement movement;
  resolve movement.

Definition initializeInventory (productId sku : string) (initialStock : Z)
    (location : option string) : Async InventoryRecord :=
  await timestamp <- Date_now;
  let item :=
    mkInventory productId sku initialStock 0 initialStock
      (default "default"%string location) 10 20 50 timestamp timestamp timestamp in
  tryCatch
    (await_ docClient_put_inventory_if_absent item;
     await_ logStockMovement productId "INITIAL" initialStock "System initialization";
     resolve item)
    (λ error,
       if bool_decide (error_code error = Some "ConditionalCheckFailedException"%string)
       then reject (Error "Inventory already exists for this product")
       else reject error).

Definition updateStock (productId : string) (quantity : Z)
    (type reference : option string) : Async (option InventoryRecord) :=
  await currentInventory <- getInventory productId;
  match currentInventory with
  | None => reject (Error "Inventory not found for this product")
  | Some currentInventory =>
      let newAvailableStock := availableStock currentInventory + quantity in
      let newTotalStock := totalStock currentInventory + quantity in
      if bool_decide (newAvailableStock < 0)
      then reject (Error "Insufficient stock for this operation")
      else
        await now <- Date_now;
        await result <- docClient_update_inventory productId
                          (set_available_total newAvailableStock newTotalStock now);
        await_ logStockMovement productId (default "ADJUSTMENT"%string type) quantity
                 (default ""%string reference);
        resolve result
  end.

Definition reserveStock (productId : string) (quantity : Z) (orderId : string)
    (expirationMinutes : option Z) : Async Reservation :=
  await reservationId <- uuidv4;
  await timestamp <- Date_now;
  let expiresAt := timestamp + (default 15 expirationMinutes * 60 * 1000) in
  await inventory <- getInventory productId;
  match inventory with
  | None => reject (Error "Insufficient stock available")
  | Some inventory =>
      if bool_decide (availableStock inventory < quantity)
      then reject (Error "Insufficient stock available")
      else
        let newAvailableStock := availableStock inventory - quantity in
        let newReservedStock := reservedStock inventory + quantity in
        await_ docClient_update_inventory productId
                 (set_available_reserved newAvailableStock newReservedStock timestamp);
        let reservation :=
          mkReservation reservationId productId orderId quantity ACTIVE timestamp expiresAt in
        await_ docClient_put_reservation reservation;
        resolve reservation
  end.

Definition confirmReservation (reservationId : string) : Async Receipt :=
  await reservation <- docClient_get_reservation reservationId;
  match reservation with
  | None => reject (Error "Reservation not found")
  | Some reservation =>
      if bool_decide (status reservation ≠ ACTIVE)
      then reject (Error "Reservation is not active")
      else
        await inventory <- getInventory (res_productId reservation);
        match inventory with
        | None => reject (TypeError "reservedStock")
        | Some inventory =>
            let newReservedStock := reservedStock inventory - quantity reservation in
            let newTotalStock := totalStock inventory - quantity reservation in
            await now <- Date_now;
            await_ docClient_update_inventory (res_productId reservation)
                     (set_reserved_total newReservedStock newTotalStock now);
            await_ docClient_update_reservation reservationId (set_status CONFIRMED);
            await_ logStockMovement (res_productId reservation) "SALE"
                     (- quantity reservation) ("Order: " +:+ orderId reservation);
            resolve (mkReceipt true None (Some reservation))
        end
  end.

Definition cancelReservation (reservationId : string) : Async Receipt :=
  await reservation <- docClient_get_reservation reservationId;
  match reservation with
  | None => reject (Error "Reservation not found")
  | Some reservation =>
      if bool_decide (status reservation ≠ ACTIVE)
      then resolve (mkReceipt true (Some "Reservation already processed"%string) None)
      else
        await inventory <- getInventory (res_productId reservation);
        match inventory with
        | None => reject (TypeError "availableStock")
        | Some inventory =>
            let newAvailableStock := availableStock inventory + quantity reservation in
            let newReservedStock := reservedStock inventory - quantity reservation in
            await now <- Date_now;
            await_ docClient_update_inventory (res_productId reservation)
                     (set_available_reserved newAvailableStock newReservedStock now);
            await_ docClient_update_reservation reservationId (set_status CANCELLED);
            resolve (mkReceipt true None (Some reservation))
        end
  end.

(** The body of [for (const reservation of result.Items) { try ... catch ... }]:
    the caught error is only written to the console. *)
Fixpoint cancelEach (items : list Reservation) : Async unit :=
  match items with
  | [] => resolve tt
  | reservation :: rest =>
      await_ tryCatch
               (await_ cancelReservation (reservationId reservation); resolve tt)
               (λ _, resolve tt);
      cancelEach rest
  end.

(** Returns the [cleaned] field of the result object. *)
Definition cleanupExpiredReservations : Async nat :=
  await now <- Date_now;
  await items <- docClient_scan_reservations (expired now);
  await_ cancelEach items;
  resolve (length items).

End Service.

(** ** Requests and reachable worlds *)

Section Ledger.
Context `{!Environment}.

(** A call of one of the mutating methods of the service. *)
Inductive Request :=
  | InitializeInventory (productId sku : string) (initialStock : Z) (location : option string)
  | UpdateStock (productId : string) (quantity : Z) (type reference : option string)
  | ReserveStock (productId : string) (quantity : Z) (orderId : string)
      (expirationMinutes : option Z)
  | ConfirmReservation (reservationId : string)
  | CancelReservation (reservationId : string)
  | CleanupExpiredReservations.

(** The ranges that [validateInitialize] and [validateReservation] declare:
    [initialStock] is at least 0 and a reserved [quantity] at least 1. *)
Definition in_range (req : Request) : Prop :=
  match req with
  | InitializeInventory _ _ initialStock _ => 0 ≤ initialStock
  | ReserveStock _ quantity _ _ => 0 < quantity
  | _ => True
  end.

(** Runs the method and forgets the returned value. *)
Definition perform (req : Request) : Async unit :=
  match req with
  | InitializeInventory productId sku initialStock location =>
      await_ initializeInventory productId sku initialStock location; resolve tt
  | UpdateStock productId quantity type reference =>
      await_ updateStock productId quantity type reference; resolve tt
  | ReserveStock productId quantity orderId expirationMinutes =>
      await_ reserveStock productId quantity orderId expirationMinutes; resolve tt
  | ConfirmReservation reservationId =>
      await_ confirmReservation reservationId; resolve tt
  | CancelReservation reservationId =>
      await_ cancelReservation reservationId; resolve tt
  | CleanupExpiredReservations =>
      await_ cleanupExpiredReservations; resolve tt
  end.

(** The world after the call, whether it returned or threw. *)
Definition after (req : Request) (w : World) : World := (perform req w).2.

(** Worlds that calls made one after the other, with arguments in range,
    produce from empty tables. *)
Inductive reachable : World → Prop :=
  | reachable_empty t u : reachable (mkWorld ∅ ∅ ∅ t u)
  | reachable_after w req : reachable w → in_range req → reachable (after req w).

(** The quantity that a reservation holds of a product: its own while it is
    ACTIVE, nothing once it is resolved. *)
Definition held (pid : string) (r : Reservation) : Z :=
  if bool_decide (status r = ACTIVE ∧ res_productId r = pid) then quantity r else 0.

(** The quantity of a reservation that is ACTIVE or CONFIRMED. *)
Definition claimed (pid : string) (r : Reservation) : Z :=
  if bool_decide (status r ≠ CANCELLED ∧ res_productId r = pid) then quantity r else 0.

(** The signed quantity of a movement of a product. *)
Definition moved (pid : string) (m : StockMovement) : Z :=
  if bool_decide (mv_productId m = pid) then mv_quantity m else 0.

(** A counter of a product, 0 when the product has no record. *)
Definition counter (f : InventoryRecord → Z) (pid : string) (w : World) : Z :=
  from_option f 0 (inventory w !! pid).

(** The invariant of the reachable worlds. *)
Record consistent (w : World) : Prop := {
  counters_balance : ∀ pid r, inventory w !! pid = Some r →
    availableStock r + reservedStock r = totalStock r ∧ 0 ≤ availableStock r;
  reserved_is_held : ∀ pid,
    sum_table (held pid) (reservations w) = counter reservedStock pid w;
  total_is_moved : ∀ pid,
    sum_table (moved pid) (stockMovements w) = counter totalStock pid w;
  reservation_sound : ∀ rid r, reservations w !! rid = Some r →
    0 < quantity r ∧ reservationId r = rid ∧ is_Some (inventory w !! res_productId r);
  reservation_ids : ∀ rid, is_Some (reservations w !! rid) →
    ∃ n, (n < uuids w)%nat ∧ rid = uuid_stream n;
  movement_ids : ∀ mid, is_Some (stockMovements w !! mid) →
    ∃ n, (n < uuids w)%nat ∧ mid = uuid_stream n
}.

(** The three tables of two worlds agree. *)
Definition same_tables (w w' : World) : Prop :=
  inventory w' = inventory w ∧ reservations w' = reservations w ∧
  stockMovements w' = stockMovements w.

(** Whether the call returns (rather than throws). *)
Definition returns (req : Request) (w : World) : Prop := (perform req w).1 = Return tt.

(** A step that leaves the movement log and every [totalStock] as they were. *)
Definition logs_nothing (w w' : World) : Prop :=
  stockMovements w' = stockMovements w ∧
  ∀ pid, counter totalStock pid w' = counter totalStock pid w.

(** A step that adds exactly one movement, under an identifier that was not
    in use, whose signed quantity is the change of [totalStock] of its
    product (and leaves every other [totalStock] as it was). *)
Definition logs_one (w w' : World) : Prop :=
  ∃ mid mv,
    stockMovements w !! mid = None ∧
    stockMovements w' = <[mid:=mv]> (stockMovements w) ∧
    ∀ pid, counter totalStock pid w' - counter totalStock pid w = moved pid mv.

(** ** Interleaved calls of [reserveStock]

    A call runs until its next [await] and is resumed when the awaited
    storage operation has been performed; between two resumptions other calls
    may run.  The storage operation and the code up to the next [await] form
    one slice. *)

(** A call of [reserveStock], suspended. *)
Inductive ReserveCall :=
  | Called (productId : string) (quantity : Z) (orderId : string)
      (expirationMinutes : option Z)
  | Fetched (reservationId : string) (timestamp expiresAt : Z) (productId : string)
      (quantity : Z) (orderId : string) (inventory : option InventoryRecord)
  | Updated (reservation : Reservation)
  | Settled (result : Outcome Reservation).

(** The next slice of a call: up to and including [getInventory], then the
    check and the [update] of the counters, then the [put] of the
    reservation. *)
Definition reserveStock_resume (c : ReserveCall) : Async ReserveCall :=
  match c with
  | Called productId quantity orderId expirationMinutes =>
      await reservationId <- uuidv4;
      await timestamp <- Date_now;
      let expiresAt := timestamp + (default 15 expirationMinutes * 60 * 1000) in
      await inventory <- getInventory productId;
      resolve (Fetched reservationId timestamp expiresAt productId quantity orderId inventory)
  | Fetched reservationId timestamp expiresAt productId quantity orderId inventory =>
      match inventory with
      | None => resolve (Settled (Throw (Error "Insufficient stock available")))
      | Some inventory =>
          if bool_decide (availableStock inventory < quantity)
          then resolve (Settled (Throw (Error "Insufficient stock available")))
          else
            let newAvailableStock := availableStock inventory - quantity in
            let newReservedStock := reservedStock inventory + quantity in
            await_ docClient_update_inventory productId
                     (set_available_reserved newAvailableStock newReservedStock timestamp);
            resolve (Updated (mkReservation reservationId productId orderId quantity ACTIVE
                                timestamp expiresAt))
      end
  | Updated reservation =>
      await_ docClient_put_reservation reservation;
      resolve (Settled (Return reservation))
  | Settled result => resolve (Settled result)
  end.

(** The two slices of [cleanupExpiredReservations]: the scan, and the loop
    over the scanned items with the count it returns. *)
Definition cleanup_scan : Async (list Reservation) :=
  await now <- Date_now;
  docClient_scan_reservations (expired now).

Definition cleanup_sweep (items : list Reservation) : Async nat :=
  await_ cancelEach items;
  resolve (length items).

(** Resumes the [i]-th call of the pool for one slice. *)
Definition resume (i : nat) (pool : list ReserveCall) (w : World) : list ReserveCall * World :=
  match pool !! i with
  | Some c =>
      match reserveStock_resume c w with
      | (Return c', w') => (<[i:=c']> pool, w')
      | (Throw _, w') => (pool, w')
      end
  | None => (pool, w)
  end.

(** Runs the pool under a schedule, one slice per entry. *)
Fixpoint interleave (schedule : list nat) (pool : list ReserveCall) (w : World)
    : list ReserveCall * World :=
  match schedule with
  | [] => (pool, w)
  | i :: rest => let (pool', w') := resume i pool w in interleave rest pool' w'
  end.

(** Calls of [reserveStock] for one product, each awaited before the next is
    made; the reservations granted. *)
Fixpoint reserveEach (pid : string) (calls : list (Z * string * option Z))
    : Async (list Reservation) :=
  match calls with
  | [] => resolve []
  | (quantity, orderId, expirationMinutes) :: rest =>
      await granted <- tryCatch
                         (await r <- reserveStock pid quantity orderId expirationMinutes;
                          resolve [r])
                         (λ _, resolve []);
      await others <- reserveEach pid rest;
      resolve (granted ++ others)
  end.

(** The quantities of a list of reservations, added up. *)
Definition total_quantity (l : list Reservation) : Z := foldr Z.add 0 (quantity <$> l).

(** What a sweep at time [now] makes of a stored reservation. *)
Definition reclaim (now : Z) (r : Reservation) : Reservation :=
  if expired now r then set_status CANCELLED r else r.

End Ledger.

(** ** The error taxonomy *)

Inductive ErrorKind := NotFound | AlreadyExists | InsufficientStock | InvalidState | Unclassified.

(** The service signals the kind of a failure only through the message of
    the [Error] it throws; this is the kind each message stands for. *)
Definition errorKind (e : Exception) : ErrorKind :=
  match e with
  | Error message =>
      if bool_decide (message = "Inventory not found for this product"%string) then NotFound
      else if bool_decide (message = "Reservation not found"%string) then NotFound
      else if bool_decide (message = "Inventory already exists for this product"%string)
      then AlreadyExists
      else if bool_decide (message = "Insufficient stock for this operation"%string)
      then InsufficientStock
      else if bool_decide (message = "Insufficient stock available"%string)
      then InsufficientStock
      else if bool_decide (message = "Reservation is not active"%string) then InvalidState
      else Unclassified
  | _ => Unclassified
  end.

(** The receipt of a cancellation that found the reservation resolved. *)
Definition alreadyProcessed (rc : Receipt) : bool :=
  bool_decide (rc_message rc = Some "Reservation already processed"%string).

(** ** A concrete environment *)

(** A clock that advances by one millisecond per reading and identifiers
    [id-0], [id-1], ... *)
Definition demo_environment : Environment :=
  {| clock := λ n, 1700000000000 + Z.of_nat n;
     uuid_stream := λ n, ("id-" +:+ pretty n)%string |}.

Definition empty_world : World := mkWorld ∅ ∅ ∅ 0 0.

(** The world after the given calls, made in order from the empty tables. *)
Definition demo_run (reqs : list Request) : World :=
  foldl (λ w req, @after demo_environment req w) empty_world reqs.

(** The calls of the scenarios of the ledger: a product of 50 units, a
    reservation of 10 that is confirmed and one of 5 that is cancelled. *)
Definition demo_requests : list Request :=
  [InitializeInventory "p1" "SKU1" 50 (Some "WH-A"%string);
   ReserveStock "p1" 10 "orderA" (Some 15);
   ConfirmReservation "id-1";
   ReserveStock "p1" 5 "orderB" (Some 15);
   CancelReservation "id-3"].

(** Two calls that each reserve the whole stock of 10 units, resumed in
    turn. *)
Definition oversell_world : World :=
  demo_run [InitializeInventory "p1" "SKU1" 10 None].

Definition oversell_pool : list ReserveCall :=
  [Called "p1" 10 "orderA" None; Called "p1" 10 "orderB" None].

Definition oversell_schedule : list nat := [0; 1; 0; 1; 0; 1]%nat.

(** The two reservations that the interleaved calls are granted. *)
Definition oversell_first : Reservation :=
  mkReservation "id-1" "p1" "orderA" 10 ACTIVE 1700000000002 1700000900002.

Definition oversell_second : Reservation :=
  mkReservation "id-2" "p1" "orderB" 10 ACTIVE 1700000000003 1700000900003.

(** A product of 50 units with an ACTIVE reservation of 10, stored under
    [id-1]. *)
Definition reserved_world : World :=
  demo_run [InitializeInventory "p1" "SKU1" 50 (Some "WH-A"%string);
            ReserveStock "p1" 10 "orderA" (Some 15)].

Definition reserved_reservation : Reservation :=
  mkReservation "id-1" "p1" "orderA" 10 ACTIVE 1700000000002 1700000900002.

(** A reservation table holding an expired ACTIVE reservation of a product
    that has no inventory record. *)
Definition orphan_reservation : Reservation :=
  mkReservation "r1" "ghost" "orderX" 5 ACTIVE 0 1.

Definition orphan_world : World :=
  mkWorld ∅ {["r1"%string := orphan_reservation]} ∅ 0 0.

(** A product of 50 units with a reservation of 10 that expires at once. *)
Definition stale_world : World :=
  demo_run [InitializeInventory "p1" "SKU1" 50 None;
            ReserveStock "p1" 10 "orderA" (Some 0)].

(** The record of [p1] after [demo_requests], and its two resolved
    reservations. *)
Definition demo_record : InventoryRecord :=
  mkInventory "p1" "SKU1" 40 0 40 "WH-A" 10 20 50 1700000000000 1700000000000
    1700000000006.

Definition demo_confirmed : Reservation :=
  mkReservation "id-1" "p1" "orderA" 10 CONFIRMED 1700000000002 1700000900002.

(** Two products, the second with little stock. *)
Definition two_products : list Request :=
  [InitializeInventory "p1" "SKU1" 50 (Some "WH-A"%string);
   InitializeInventory "p2" "SKU2" 5 None].

(** The reservation of [stale_world]. *)
Definition stale_reservation : Reservation :=
  mkReservation "id-1" "p1" "orderA" 10 ACTIVE 1700000000002 1700000000002.

(** ** What a call keeps *)

(** Two versions of an inventory record that differ at most in the three
    counters and [updatedAt]. *)
Definition same_identity (r r' : InventoryRecord) : Prop :=
  productId r' = productId r ∧ sku r' = sku r ∧ location r' = location r ∧
  lowStockThreshold r' = lowStockThreshold r ∧ reorderPoint r' = reorderPoint r ∧
  reorderQuantity r' = reorderQuantity r ∧ lastRestocked r' = lastRestocked r ∧
  createdAt r' = createdAt r.

(** Every record of [w] is still stored in [w'], under the same key and with
    the same identity. *)
Definition keeps_records (w w' : World) : Prop :=
  ∀ pid r, inventory w !! pid = Some r →
    ∃ r', inventory w' !! pid = Some r' ∧ same_identity r r'.

(** A later version of a stored reservation: the same but for [status], which
    has changed only if it was ACTIVE. *)
Definition resolves (r r' : Reservation) : Prop :=
  r' = set_status (status r') r ∧ (status r' = status r ∨ status r = ACTIVE).

(** Every reservation of [w] is still stored in [w'], possibly resolved. *)
Definition keeps_reservations (w w' : World) : Prop :=
  ∀ rid r, reservations w !! rid = Some r →
    ∃ r', reservations w' !! rid = Some r' ∧ resolves r r'.

Section Concerns.
Context `{!Environment}.

(** The product whose record a call may write. *)
Definition concerns (req : Request) (w : World) (pid : string) : Prop :=
  match req with
  | InitializeInventory p _ _ _ | UpdateStock p _ _ _ | ReserveStock p _ _ _ => p = pid
  | ConfirmReservation rid | CancelReservation rid =>
      ∃ r, reservations w !! rid = Some r ∧ res_productId r = pid
  | CleanupExpiredReservations =>
      ∃ rid r, reservations w !! rid = Some r ∧ res_productId r = pid ∧
               expired (clock (ticks w)) r = true
  end.

End Concerns.

(** ** Read-only queries of the service *)

(** [docClient.query] on the index [SkuIndex] with the key condition
    [sku = :sku]: [result.Items], read once the index holds every record. *)
Definition docClient_query_inventory_by_sku (s : string) : Async (list InventoryRecord) :=
  λ w, (Return (map_to_list (filter (λ kv, sku kv.2 = s) (inventory w))).*2, w).

(** [result.Items[0]]: undefined when the query finds nothing. *)
Definition getInventoryBySku (sku : string) : Async (option InventoryRecord) :=
  await items <- docClient_query_inventory_by_sku sku;
  resolve (head items).

(** [docClient.scan] on the inventory table with a filter. *)
Definition docClient_scan_inventory (p : InventoryRecord → bool)
    : Async (list InventoryRecord) :=
  λ w, (Return (map_to_list (filter (λ kv, p kv.2 = true) (inventory w))).*2, w).

(** The filter [availableStock <= lowStockThreshold]. *)
Definition lowStock (r : InventoryRecord) : bool :=
  bool_decide (availableStock r ≤ lowStockThreshold r).

Definition getLowStockItems : Async (list InventoryRecord) :=
  docClient_scan_inventory lowStock.

(** The order of the index [ProductIdTimestampIndex] read with
    [ScanIndexForward: false]: most recent first. *)
Definition newer (a b : StockMovement) : Prop := timestamp b ≤ timestamp a.

Global Instance newer_dec a b : Decision (newer a b).
Proof. unfold newer. apply _. Defined.

Global Instance newer_total : Total newer.
Proof. intros a b. unfold newer. lia. Qed.

Global Instance newer_trans : Transitive newer.
Proof. intros a b c. unfold newer. lia. Qed.

(** [docClient.query] on [ProductIdTimestampIndex] with the key condition
    [productId = :productId], backwards, with [Limit].  DynamoDB accepts a
    [Limit] of at least 1 only, hence the type of [limit]. *)
Definition docClient_query_movements (pid : string) (limit : positive)
    : Async (list StockMovement) :=
  λ w, (Return (take (Pos.to_nat limit)
                  (merge_sort newer
                     (map_to_list (filter (λ kv, mv_productId kv.2 = pid)
                                     (stockMovements w))).*2)), w).

Definition getStockMovements (productId : string) (limit : option positive)
    : Async (list StockMovement) :=
  docClient_query_movements productId (default 50%positive limit).

(** The quantities of a list of movements, added up. *)
Definition net_quantity (l : list StockMovement) : Z := foldr Z.add 0 (mv_quantity <$> l).

(** Every record is stored under its own [productId] and has the thresholds
    that [initializeInventory] writes. *)
Definition as_initialised (w : World) : Prop :=
  ∀ pid r, inventory w !! pid = Some r →
    productId r = pid ∧ lowStockThreshold r = 10 ∧ reorderPoint r = 20 ∧
    reorderQuantity r = 50.

(** ** The controller

    [controllers/inventoryController.js]: each handler reads its arguments
    from the request, calls the service and sends one response. *)

(** An entry of the request body of [checkStockAvailability]. *)
Record StockCheck := mkStockCheck {
  chk_productId : string;
  chk_quantity : Z
}.

(** An entry of its answer. *)
Record Availability := mkAvailability {
  av_productId : string;
  requestedQuantity : Z;
  available : bool;
  av_availableStock : Z
}.

(** The JSON objects that the handlers send. *)
Inductive Body :=
  | ItemBody (inventory : InventoryRecord)      (* res.json(inventory) *)
  | MessageBody (message : string)              (* { message } *)
  | ServerErrorBody (error : Exception)         (* { message: 'Server error', error: error.message } *)
  | RejectionBody (error : Exception)           (* { message: error.message } *)
  | InventoryBody (message : string) (inventory : option InventoryRecord)
  | ReservationBody (message : string) (reservation : Reservation)
  | ReceiptBody (message : string) (success : bool) (reservation : option Reservation)
  | CleanupBody (message : string) (cleaned : nat)
  | AvailabilityBody (availability : list Availability).

(** [res.status(statusCode).json(body)]; [res.json(body)] sends status 200. *)
Record Response := mkResponse {
  statusCode : Z;
  body : Body
}.

(** [{ message, ...result }]: a [message] of the spread object replaces the
    one written before it. *)
Definition spread_receipt (message : string) (result : Receipt) : Body :=
  ReceiptBody (default message (rc_message result)) (success result) (rc_reservation result).

Module inventoryController.
Section Handlers.
Context `{!Environment}.

Definition initializeInventory (productId sku : string) (initialStock : Z)
    (location : option string) : Async Response :=
  tryCatch
    (await inventory <- initializeInventory productId sku initialStock location;
     resolve (mkResponse 201
                (InventoryBody "Inventory initialized successfully" (Some inventory))))
    (λ error, resolve (mkResponse 400 (RejectionBody error))).

Definition updateStock (productId : string) (quantity : Z) (type reference : option string)
    : Async Response :=
  tryCatch
    (await inventory <- updateStock productId quantity type reference;
     resolve (mkResponse 200 (InventoryBody "Stock updated successfully" inventory)))
    (λ error, resolve (mkResponse 400 (RejectionBody error))).

Definition reserveStock (productId : string) (quantity : Z) (orderId : string)
    (expirationMinutes : option Z) : Async Response :=
  tryCatch
    (await reservation <- reserveStock productId quantity orderId expirationMinutes;
     resolve (mkResponse 201 (ReservationBody "Stock reserved successfully" reservation)))
    (λ error, resolve (mkResponse 400 (RejectionBody error))).

Definition confirmReservation (reservationId : string) : Async Response :=
  tryCatch
    (await result <- confirmReservation reservationId;
     resolve (mkResponse 200 (spread_receipt "Reservation confirmed successfully" result)))
    (λ error, resolve (mkResponse 400 (RejectionBody error))).

Definition cancelReservation (reservationId : string) : Async Response :=
  tryCatch
    (await result <- cancelReservation reservationId;
     resolve (mkResponse 200 (spread_receipt "Reservation cancelled successfully" result)))
    (λ error, resolve (mkResponse 400 (RejectionBody error))).

Definition cleanupExpiredReservations : Async Response :=
  tryCatch
    (await cleaned <- cleanupExpiredReservations;
     resolve (mkResponse 200 (CleanupBody "Cleanup completed" cleaned)))
    (λ error, resolve (mkResponse 500 (ServerErrorBody error))).

(** The loop of [checkStockAvailability]: one [getInventory] and one pushed
    entry per item. *)
Fixpoint checkEach (items : list StockCheck) : Async (list Availability) :=
  match items with
  | [] => resolve []
  | item :: rest =>
      await inventory <- getInventory (chk_productId item);
      let entry :=
        mkAvailability (chk_productId item) (chk_quantity item)
          (match inventory with
           | Some inventory => bool_decide (chk_quantity item ≤ availableStock inventory)
           | None => false
           end)
          (match inventory with
           | Some inventory => availableStock inventory
           | None => 0
           end) in
      await others <- checkEach rest;
      resolve (entry :: others)
  end.

Definition checkStockAvailability (items : list StockCheck) : Async Response :=
  tryCatch
    (await availability <- checkEach items;
     resolve (mkResponse 200 (AvailabilityBody availability)))
    (λ error, resolve (mkResponse 500 (ServerErrorBody error))).

Definition getInventory (productId : string) : Async Response :=
  tryCatch
    (await inventory <- getInventory productId;
     match inventory with
     | None => resolve (mkResponse 404 (MessageBody "Inventory not found"))
     | Some inventory => resolve (mkResponse 200 (ItemBody inventory))
     end)
    (λ error, resolve (mkResponse 500 (ServerErrorBody error))).


End Handlers.
End inventoryController.


(** ** Properties of table sums *)

Section Sums.
Context {A : Type}.
Implicit Types (f : A → Z) (m : gmap string A).

Lemma sum_table_empty f : sum_table f ∅ = 0.
Proof. apply map_fold_empty. Qed.

Lemma sum_table_insert_fresh f m i x :
  m !! i = None → sum_table f (<[i:=x]> m) = f x + sum_table f m.
Proof.
  intros Hi. unfold sum_table.
  rewrite map_fold_insert_L; [done | intros; lia | done].
Qed.

Lemma sum_table_delete f m i x :
  m !! i = Some x → sum_table f m = f x + sum_table f (delete i m).
Proof.
  intros Hi. unfold sum_table.
  rewrite (map_fold_delete_L _ _ i x m); [done | intros; lia | done].
Qed.

Lemma sum_table_insert f m i x y :
  m !! i = Some y → sum_table f (<[i:=x]> m) = f x - f y + sum_table f m.
Proof.
  intros Hi. rewrite <- insert_delete_eq.
  rewrite sum_table_insert_fresh by apply lookup_delete_eq.
  rewrite (sum_table_delete f m i y Hi). lia.
Qed.

Lemma alter_present (g : A → A) m i y :
  m !! i = Some y → alter g i m = <[i:=g y]> m.
Proof.
  intros Hi. apply map_eq. intros j. destruct (decide (i = j)) as [->|Hne].
  - by rewrite lookup_alter_eq, lookup_insert_eq, Hi.
  - by rewrite lookup_alter_ne, lookup_insert_ne.
Qed.

Lemma sum_table_alter f (g : A → A) m i y :
  m !! i = Some y → sum_table f (alter g i m) = f (g y) - f y + sum_table f m.
Proof.
  intros Hi. rewrite (alter_present g m i y Hi). by apply sum_table_insert.
Qed.

Lemma sum_table_nonneg f m :
  (∀ i x, m !! i = Some x → 0 ≤ f x) → 0 ≤ sum_table f m.
Proof.
  induction m as [|i x m Hi IH] using map_ind; intros Hf.
  - by rewrite sum_table_empty.
  - rewrite sum_table_insert_fresh by done.
    assert (0 ≤ f x) by (apply (Hf i); apply lookup_insert_eq).
    assert (0 ≤ sum_table f m); [|lia].
    apply IH. intros j y Hj. apply (Hf j).
    rewrite lookup_insert_ne; [done | congruence].
Qed.

Lemma sum_table_ext f f' m :
  (∀ i x, m !! i = Some x → f x = f' x) → sum_table f m = sum_table f' m.
Proof.
  induction m as [|i x m Hi IH] using map_ind; intros Hf.
  - by rewrite !sum_table_empty.
  - rewrite !sum_table_insert_fresh by done.
    rewrite (Hf i x) by apply lookup_insert_eq.
    rewrite IH; [done |]. intros j y Hj. apply (Hf j).
    rewrite lookup_insert_ne; [done | congruence].
Qed.

End Sums.

Section SumsOfImages.
Context {A : Type}.
Implicit Types (f g : A → Z) (m : gmap string A).

Lemma sum_table_fmap {B} (f : B → Z) (h : A → B) m :
  sum_table f (h <$> m) = sum_table (f ∘ h) m.
Proof.
  induction m as [|i x m Hi IH] using map_ind.
  - by rewrite fmap_empty, !sum_table_empty.
  - rewrite fmap_insert, !sum_table_insert_fresh, IH; [done | done |].
    by rewrite lookup_fmap, Hi.
Qed.

Lemma sum_table_minus f g m :
  sum_table (λ x, f x - g x) m = sum_table f m - sum_table g m.
Proof.
  induction m as [|i x m Hi IH] using map_ind.
  - by rewrite !sum_table_empty.
  - rewrite !sum_table_insert_fresh, IH by done. lia.
Qed.

End SumsOfImages.

(** ** The methods in closed form *)

Section Unfold.
Context `{!Environment}.
Implicit Types (w : World).

Lemma logStockMovement_eq pid ty q ref w :
  logStockMovement pid ty q ref w =
  let mv := mkMovement (uuid_stream (uuids w)) pid ty q ref (clock (ticks w)) in
  (Return mv,
   mkWorld (inventory w) (reservations w) (<[uuid_stream (uuids w) := mv]> (stockMovements w))
     (S (ticks w)) (S (uuids w))).
Proof. reflexivity. Qed.

Lemma initializeInventory_new pid sk n loc w :
  inventory w !! pid = None →
  initializeInventory pid sk n loc w =
  let ts := clock (ticks w) in
  let item := mkInventory pid sk n 0 n (default "default"%string loc) 10 20 50 ts ts ts in
  let mv := mkMovement (uuid_stream (uuids w)) pid "INITIAL" n "System initialization"
              (clock (S (ticks w))) in
  (Return item,
   mkWorld (<[pid := item]> (inventory w)) (reservations w)
     (<[uuid_stream (uuids w) := mv]> (stockMovements w)) (S (S (ticks w))) (S (uuids w))).
Proof.
  intros Hpid. unfold initializeInventory, andThen, tryCatch, Date_now,
    docClient_put_inventory_if_absent. simpl. rewrite Hpid. reflexivity.
Qed.

Lemma initializeInventory_exists pid sk n loc w :
  is_Some (inventory w !! pid) →
  initializeInventory pid sk n loc w =
  (Throw (Error "Inventory already exists for this product"),
   mkWorld (inventory w) (reservations w) (stockMovements w) (S (ticks w)) (uuids w)).
Proof.
  intros [r Hpid]. unfold initializeInventory, andThen, tryCatch, Date_now,
    docClient_put_inventory_if_absent. simpl. rewrite Hpid. reflexivity.
Qed.
Lemma updateStock_missing pid q ty ref w :
  inventory w !! pid = None →
  updateStock pid q ty ref w = (Throw (Error "Inventory not found for this product"), w).
Proof.
  intros Hpid. unfold updateStock, andThen, getInventory, docClient_get_inventory.
  by rewrite Hpid.
Qed.

Lemma updateStock_insufficient pid q ty ref w cur :
  inventory w !! pid = Some cur → availableStock cur + q < 0 →
  updateStock pid q ty ref w = (Throw (Error "Insufficient stock for this operation"), w).
Proof.
  intros Hpid Hq. unfold updateStock, andThen, getInventory, docClient_get_inventory.
  rewrite Hpid. by rewrite bool_decide_eq_true_2.
Qed.

Lemma updateStock_done pid q ty ref w cur :
  inventory w !! pid = Some cur → 0 ≤ availableStock cur + q →
  updateStock pid q ty ref w =
  let item := set_available_total (availableStock cur + q) (totalStock cur + q)
                (clock (ticks w)) cur in
  let mv := mkMovement (uuid_stream (uuids w)) pid (default "ADJUSTMENT"%string ty) q
              (default ""%string ref) (clock (S (ticks w))) in
  (Return (Some item),
   mkWorld (<[pid := item]> (inventory w)) (reservations w)
     (<[uuid_stream (uuids w) := mv]> (stockMovements w)) (S (S (ticks w))) (S (uuids w))).
Proof.
  intros Hpid Hq. unfold updateStock, andThen, getInventory, docClient_get_inventory.
  rewrite Hpid. rewrite bool_decide_eq_false_2 by lia.
  unfold Date_now, docClient_update_inventory, with_inventory. simpl.
  rewrite (alter_present _ _ _ _ Hpid). rewrite lookup_insert_eq. reflexivity.
Qed.

Lemma reserveStock_refused pid q oid mins w :
  (∀ cur, inventory w !! pid = Some cur → availableStock cur < q) →
  reserveStock pid q oid mins w =
  (Throw (Error "Insufficient stock available"),
   mkWorld (inventory w) (reservations w) (stockMovements w) (S (ticks w)) (S (uuids w))).
Proof.
  intros Hpid. unfold reserveStock, andThen, getInventory, docClient_get_inventory. simpl.
  destruct (inventory w !! pid) as [cur|]; [|done].
  by rewrite bool_decide_eq_true_2 by auto.
Qed.

Lemma reserveStock_done pid q oid mins w cur :
  inventory w !! pid = Some cur → q ≤ availableStock cur →
  reserveStock pid q oid mins w =
  let ts := clock (ticks w) in
  let item := set_available_reserved (availableStock cur - q) (reservedStock cur + q) ts cur in
  let r := mkReservation (uuid_stream (uuids w)) pid oid q ACTIVE ts
             (ts + default 15 mins * 60 * 1000) in
  (Return r,
   mkWorld (<[pid := item]> (inventory w)) (<[uuid_stream (uuids w) := r]> (reservations w))
     (stockMovements w) (S (ticks w)) (S (uuids w))).
Proof.
  intros Hpid Hq. unfold reserveStock, andThen, getInventory, docClient_get_inventory. simpl.
  rewrite Hpid. rewrite bool_decide_eq_false_2 by lia.
  unfold docClient_update_inventory, with_inventory. simpl.
  by rewrite (alter_present _ _ _ _ Hpid).
Qed.

Lemma confirmReservation_missing rid w :
  reservations w !! rid = None →
  confirmReservation rid w = (Throw (Error "Reservation not found"), w).
Proof.
  intros Hrid. unfold confirmReservation, andThen, docClient_get_reservation. by rewrite Hrid.
Qed.

Lemma confirmReservation_inactive rid w r :
  reservations w !! rid = Some r → status r ≠ ACTIVE →
  confirmReservation rid w = (Throw (Error "Reservation is not active"), w).
Proof.
  intros Hrid Hst. unfold confirmReservation, andThen, docClient_get_reservation.
  rewrite Hrid. by rewrite bool_decide_eq_true_2.
Qed.

Lemma confirmReservation_orphan rid w r :
  reservations w !! rid = Some r → status r = ACTIVE →
  inventory w !! res_productId r = None →
  confirmReservation rid w = (Throw (TypeError "reservedStock"), w).
Proof.
  intros Hrid Hst Hpid.
  unfold confirmReservation, andThen, docClient_get_reservation, getInventory,
    docClient_get_inventory.
  rewrite Hrid. rewrite bool_decide_eq_false_2 by auto. by rewrite Hpid.
Qed.

Lemma confirmReservation_done rid w r cur :
  reservations w !! rid = Some r → status r = ACTIVE →
  inventory w !! res_productId r = Some cur →
  confirmReservation rid w =
  let item := set_reserved_total (reservedStock cur - quantity r) (totalStock cur - quantity r)
                (clock (ticks w)) cur in
  let mv := mkMovement (uuid_stream (uuids w)) (res_productId r) "SALE" (- quantity r)
              ("Order: " +:+ orderId r) (clock (S (ticks w))) in
  (Return (mkReceipt true None (Some r)),
   mkWorld (<[res_productId r := item]> (inventory w))
     (<[rid := set_status CONFIRMED r]> (reservations w))
     (<[uuid_stream (uuids w) := mv]> (stockMovements w)) (S (S (ticks w))) (S (uuids w))).
Proof.
  intros Hrid Hst Hpid.
  unfold confirmReservation, andThen, docClient_get_reservation, getInventory,
    docClient_get_inventory.
  rewrite Hrid. rewrite bool_decide_eq_false_2 by auto. rewrite Hpid.
  unfold docClient_update_inventory, docClient_update_reservation, with_inventory,
    with_reservations. simpl.
  by rewrite (alter_present _ _ _ _ Hpid), (alter_present _ _ _ _ Hrid).
Qed.

Lemma cancelReservation_missing rid w :
  reservations w !! rid = None →
  cancelReservation rid w = (Throw (Error "Reservation not found"), w).
Proof.
  intros Hrid. unfold cancelReservation, andThen, docClient_get_reservation. by rewrite Hrid.
Qed.

Lemma cancelReservation_inactive rid w r :
  reservations w !! rid = Some r → status r ≠ ACTIVE →
  cancelReservation rid w =
  (Return (mkReceipt true (Some "Reservation already processed"%string) None), w).
Proof.
  intros Hrid Hst. unfold cancelReservation, andThen, docClient_get_reservation.
  rewrite Hrid. by rewrite bool_decide_eq_true_2.
Qed.

Lemma cancelReservation_orphan rid w r :
  reservations w !! rid = Some r → status r = ACTIVE →
  inventory w !! res_productId r = None →
  cancelReservation rid w = (Throw (TypeError "availableStock"), w).
Proof.
  intros Hrid Hst Hpid.
  unfold cancelReservation, andThen, docClient_get_reservation, getInventory,
    docClient_get_inventory.
  rewrite Hrid. rewrite bool_decide_eq_false_2 by auto. by rewrite Hpid.
Qed.

Lemma cancelReservation_done rid w r cur :
  reservations w !! rid = Some r → status r = ACTIVE →
  inventory w !! res_productId r = Some cur →
  cancelReservation rid w =
  let item := set_available_reserved (availableStock cur + quantity r)
                (reservedStock cur - quantity r) (clock (ticks w)) cur in
  (Return (mkReceipt true None (Some r)),
   mkWorld (<[res_productId r := item]> (inventory w))
     (<[rid := set_status CANCELLED r]> (reservations w))
     (stockMovements w) (S (ticks w)) (uuids w)).
Proof.
  intros Hrid Hst Hpid.
  unfold cancelReservation, andThen, docClient_get_reservation, getInventory,
    docClient_get_inventory.
  rewrite Hrid. rewrite bool_decide_eq_false_2 by auto. rewrite Hpid.
  unfold docClient_update_inventory, docClient_update_reservation, with_inventory,
    with_reservations. simpl.
  by rewrite (alter_present _ _ _ _ Hpid), (alter_present _ _ _ _ Hrid).
Qed.

End Unfold.

(** ** The invariant of the reachable worlds *)

Section Invariant.
Context `{!Environment}.
Hypothesis uuid_unique : Inj (=) (=) uuid_stream.
Implicit Types (w : World).

Lemma counter_insert f pid pid' item inv res mvs t u :
  counter f pid' (mkWorld (<[pid:=item]> inv) res mvs t u) =
  if decide (pid = pid') then f item else counter f pid' (mkWorld inv res mvs t u).
Proof.
  unfold counter. simpl. rewrite lookup_insert. by case_decide.
Qed.

Lemma consistent_empty t u : consistent (mkWorld ∅ ∅ ∅ t u).
Proof.
  split; simpl.
  - intros pid r. by rewrite lookup_empty.
  - intros pid. unfold counter. simpl. by rewrite sum_table_empty, lookup_empty.
  - intros pid. unfold counter. simpl. by rewrite sum_table_empty, lookup_empty.
  - intros rid r. by rewrite lookup_empty.
  - intros rid [r Hr]. by rewrite lookup_empty in Hr.
  - intros mid [m Hm]. by rewrite lookup_empty in Hm.
Qed.

Lemma consistent_counters w t u :
  consistent w → (uuids w ≤ u)%nat →
  consistent (mkWorld (inventory w) (reservations w) (stockMovements w) t u).
Proof.
  intros [H1 H2 H3 H4 H5 H6] Hu. split; simpl; try done.
  - intros rid Hrid. destruct (H5 rid Hrid) as (n & Hn & ->). exists n. split; [lia | done].
  - intros mid Hmid. destruct (H6 mid Hmid) as (n & Hn & ->). exists n. split; [lia | done].
Qed.

Lemma fresh_reservation w : consistent w → reservations w !! uuid_stream (uuids w) = None.
Proof.
  intros Hw. destruct (reservations w !! uuid_stream (uuids w)) as [r|] eqn:Hr; [|done].
  destruct (reservation_ids w Hw _ (mk_is_Some _ _ Hr)) as (n & Hn & Heq).
  apply uuid_unique in Heq. lia.
Qed.

Lemma fresh_movement w : consistent w → stockMovements w !! uuid_stream (uuids w) = None.
Proof.
  intros Hw. destruct (stockMovements w !! uuid_stream (uuids w)) as [r|] eqn:Hr; [|done].
  destruct (movement_ids w Hw _ (mk_is_Some _ _ Hr)) as (n & Hn & Heq).
  apply uuid_unique in Heq. lia.
Qed.

Lemma ids_insert {A} (m : gmap string A) (x : A) (u : nat) :
  (∀ k, is_Some (m !! k) → ∃ n, (n < u)%nat ∧ k = uuid_stream n) →
  ∀ k, is_Some (<[uuid_stream u := x]> m !! k) → ∃ n, (n < S u)%nat ∧ k = uuid_stream n.
Proof.
  intros Hm k. rewrite lookup_insert_is_Some. intros [<-|[_ Hk]].
  - exists u. split; [lia | done].
  - destruct (Hm k Hk) as (n & Hn & ->). exists n. split; [lia | done].
Qed.

Lemma ids_weaken {A} (m : gmap string A) (u : nat) :
  (∀ k, is_Some (m !! k) → ∃ n, (n < u)%nat ∧ k = uuid_stream n) →
  ∀ k, is_Some (m !! k) → ∃ n, (n < S u)%nat ∧ k = uuid_stream n.
Proof.
  intros Hm k Hk. destruct (Hm k Hk) as (n & Hn & ->). exists n. split; [lia | done].
Qed.

Lemma ids_overwrite {A} (m : gmap string A) (x y : A) (i : string) (u : nat) :
  m !! i = Some y →
  (∀ k, is_Some (m !! k) → ∃ n, (n < u)%nat ∧ k = uuid_stream n) →
  ∀ k, is_Some (<[i := x]> m !! k) → ∃ n, (n < u)%nat ∧ k = uuid_stream n.
Proof.
  intros Hi Hm k. rewrite lookup_insert_is_Some. intros [<-|[_ Hk]]; apply Hm; [by eexists | done].
Qed.

Lemma consistent_initialize w pid item mv t :
  consistent w → inventory w !! pid = None →
  availableStock item = totalStock item → reservedStock item = 0 →
  0 ≤ availableStock item →
  mv_productId mv = pid → mv_quantity mv = totalStock item →
  consistent (mkWorld (<[pid:=item]> (inventory w)) (reservations w)
                (<[uuid_stream (uuids w) := mv]> (stockMovements w)) t (S (uuids w))).
Proof.
  intros Hw Hpid Hav Hre Hnn Hmp Hmq.
  pose proof (fresh_movement w Hw) as Hfresh.
  destruct Hw as [H1 H2 H3 H4 H5 H6]. split; simpl.
  - intros pid' r. rewrite lookup_insert. case_decide as Hd.
    + intros [= <-]. lia.
    + apply H1.
  - intros pid'. rewrite counter_insert. case_decide as Hd.
    + subst pid'. rewrite H2. unfold counter. rewrite Hpid. simpl. lia.
    + apply H2.
  - intros pid'. rewrite sum_table_insert_fresh by done. rewrite counter_insert.
    unfold moved at 1. rewrite Hmp. case_decide as Hd.
    + subst pid'. rewrite bool_decide_eq_true_2 by done. rewrite H3.
      unfold counter. rewrite Hpid. simpl. lia.
    + rewrite bool_decide_eq_false_2 by done. rewrite H3. done.
  - intros rid r Hr. destruct (H4 rid r Hr) as (Hq & Hid & Hin).
    split_and!; [done | done |]. rewrite lookup_insert_is_Some. 
    destruct (decide (pid = res_productId r)); auto.
  - by apply ids_weaken.
  - by apply ids_insert.
Qed.

Lemma counter_lookup f pid w r : inventory w !! pid = Some r → counter f pid w = f r.
Proof. intros Hr. unfold counter. by rewrite Hr. Qed.

Lemma held_active pid r :
  status r = ACTIVE →
  held pid r = if decide (res_productId r = pid) then quantity r else 0.
Proof.
  intros Hst. unfold held. destruct (decide (res_productId r = pid)) as [Hp|Hp].
  - by rewrite bool_decide_eq_true_2.
  - rewrite bool_decide_eq_false_2; [done | by intros [_ ?]].
Qed.

Lemma held_resolved pid r : status r ≠ ACTIVE → held pid r = 0.
Proof. intros Hst. unfold held. rewrite bool_decide_eq_false_2; [done | by intros [? _]]. Qed.

Lemma moved_of pid m :
  moved pid m = if decide (mv_productId m = pid) then mv_quantity m else 0.
Proof.
  unfold moved. destruct (decide (mv_productId m = pid)).
  - by rewrite bool_decide_eq_true_2.
  - by rewrite bool_decide_eq_false_2.
Qed.

Lemma consistent_updateStock w pid cur item mv t :
  consistent w → inventory w !! pid = Some cur →
  0 ≤ availableStock item →
  availableStock item - availableStock cur = totalStock item - totalStock cur →
  reservedStock item = reservedStock cur →
  mv_productId mv = pid → mv_quantity mv = totalStock item - totalStock cur →
  consistent (mkWorld (<[pid:=item]> (inventory w)) (reservations w)
                (<[uuid_stream (uuids w) := mv]> (stockMovements w)) t (S (uuids w))).
Proof.
  intros Hw Hpid Hnn Hav Hre Hmp Hmq.
  pose proof (fresh_movement w Hw) as Hfresh.
  destruct Hw as [H1 H2 H3 H4 H5 H6]. split; simpl.
  - intros pid' r. rewrite lookup_insert. case_decide as Hd.
    + intros [= <-]. destruct (H1 pid cur Hpid). lia.
    + apply H1.
  - intros pid'. rewrite counter_insert. case_decide as Hd.
    + subst pid'. rewrite H2. rewrite (counter_lookup _ _ _ _ Hpid). lia.
    + apply H2.
  - intros pid'. rewrite sum_table_insert_fresh by done. rewrite counter_insert.
    rewrite moved_of, Hmp, H3. case_decide as Hd.
    + subst pid'. rewrite (counter_lookup _ _ _ _ Hpid). lia.
    + done.
  - intros rid r Hr. destruct (H4 rid r Hr) as (Hq & Hid & Hin).
    split_and!; [done | done |]. rewrite lookup_insert_is_Some.
    destruct (decide (pid = res_productId r)); auto.
  - by apply ids_weaken.
  - by apply ids_insert.
Qed.

Lemma consistent_reserveStock w pid cur item r t :
  consistent w → inventory w !! pid = Some cur →
  0 < quantity r → quantity r ≤ availableStock cur →
  availableStock item = availableStock cur - quantity r →
  reservedStock item = reservedStock cur + quantity r →
  totalStock item = totalStock cur →
  reservationId r = uuid_stream (uuids w) → res_productId r = pid → status r = ACTIVE →
  consistent (mkWorld (<[pid:=item]> (inventory w))
                (<[uuid_stream (uuids w) := r]> (reservations w))
                (stockMovements w) t (S (uuids w))).
Proof.
  intros Hw Hpid Hq Hle Hav Hre Hto Hid Hrp Hst.
  pose proof (fresh_reservation w Hw) as Hfresh.
  destruct Hw as [H1 H2 H3 H4 H5 H6]. split; simpl.
  - intros pid' r'. rewrite lookup_insert. case_decide as Hd.
    + intros [= <-]. destruct (H1 pid cur Hpid). lia.
    + apply H1.
  - intros pid'. rewrite sum_table_insert_fresh by done. rewrite counter_insert.
    rewrite held_active, Hrp, H2 by done. case_decide as Hd.
    + subst pid'. rewrite (counter_lookup _ _ _ _ Hpid). lia.
    + done.
  - intros pid'. rewrite counter_insert, H3. case_decide as Hd.
    + subst pid'. by rewrite (counter_lookup _ _ _ _ Hpid).
    + done.
  - intros rid r'. rewrite lookup_insert. case_decide as Hd.
    + intros [= <-]. subst rid. split_and!; [done | done |].
      rewrite Hrp, lookup_insert_eq. by eexists.
    + intros Hr. destruct (H4 rid r' Hr) as (Hq' & Hid' & Hin).
      split_and!; [done | done |]. rewrite lookup_insert_is_Some.
      destruct (decide (pid = res_productId r')); auto.
  - by apply ids_insert.
  - by apply ids_weaken.
Qed.

Lemma consistent_confirmReservation w rid r cur item mv t :
  consistent w → reservations w !! rid = Some r → status r = ACTIVE →
  inventory w !! res_productId r = Some cur →
  availableStock item = availableStock cur →
  reservedStock item = reservedStock cur - quantity r →
  totalStock item = totalStock cur - quantity r →
  mv_productId mv = res_productId r → mv_quantity mv = - quantity r →
  consistent (mkWorld (<[res_productId r:=item]> (inventory w))
                (<[rid := set_status CONFIRMED r]> (reservations w))
                (<[uuid_stream (uuids w) := mv]> (stockMovements w)) t (S (uuids w))).
Proof.
  intros Hw Hrid Hst Hpid Hav Hre Hto Hmp Hmq.
  pose proof (fresh_movement w Hw) as Hfresh.
  destruct Hw as [H1 H2 H3 H4 H5 H6]. split; simpl.
  - intros pid' r'. rewrite lookup_insert. case_decide as Hd.
    + intros [= <-]. destruct (H1 _ cur Hpid). lia.
    + apply H1.
  - intros pid'. rewrite (sum_table_insert _ _ _ _ r) by done. rewrite counter_insert.
    rewrite (held_active _ r), held_resolved, H2 by done. case_decide as Hd.
    + subst pid'. rewrite (counter_lookup _ _ _ _ Hpid). lia.
    + unfold counter. simpl. lia.
  - intros pid'. rewrite sum_table_insert_fresh by done. rewrite counter_insert.
    rewrite moved_of, Hmp, H3. case_decide as Hd.
    + subst pid'. rewrite (counter_lookup _ _ _ _ Hpid). lia.
    + done.
  - intros rid' r'. rewrite lookup_insert. case_decide as Hd.
    + intros [= <-]. subst rid'. destruct (H4 rid r Hrid) as (Hq' & Hid' & Hin).
      split_and!; [done | done |]. simpl. rewrite lookup_insert_eq. by eexists.
    + intros Hr. destruct (H4 rid' r' Hr) as (Hq' & Hid' & Hin).
      split_and!; [done | done |]. rewrite lookup_insert_is_Some.
      destruct (decide (res_productId r = res_productId r')); auto.
  - apply ids_weaken. by apply (ids_overwrite _ _ r).
  - by apply ids_insert.
Qed.

Lemma consistent_cancelReservation w rid r cur item t :
  consistent w → reservations w !! rid = Some r → status r = ACTIVE →
  inventory w !! res_productId r = Some cur →
  availableStock item = availableStock cur + quantity r →
  reservedStock item = reservedStock cur - quantity r →
  totalStock item = totalStock cur →
  consistent (mkWorld (<[res_productId r:=item]> (inventory w))
                (<[rid := set_status CANCELLED r]> (reservations w))
                (stockMovements w) t (uuids w)).
Proof.
  intros Hw Hrid Hst Hpid Hav Hre Hto.
  destruct Hw as [H1 H2 H3 H4 H5 H6]. split; simpl.
  - intros pid' r'. rewrite lookup_insert. case_decide as Hd.
    + intros [= <-]. destruct (H1 _ cur Hpid). destruct (H4 rid r Hrid). lia.
    + apply H1.
  - intros pid'. rewrite (sum_table_insert _ _ _ _ r) by done. rewrite counter_insert.
    rewrite (held_active _ r), held_resolved, H2 by done. case_decide as Hd.
    + subst pid'. rewrite (counter_lookup _ _ _ _ Hpid). lia.
    + unfold counter. simpl. lia.
  - intros pid'. rewrite counter_insert, H3. case_decide as Hd.
    + subst pid'. by rewrite (counter_lookup _ _ _ _ Hpid).
    + done.
  - intros rid' r'. rewrite lookup_insert. case_decide as Hd.
    + intros [= <-]. subst rid'. destruct (H4 rid r Hrid) as (Hq' & Hid' & Hin).
      split_and!; [done | done |]. simpl. rewrite lookup_insert_eq. by eexists.
    + intros Hr. destruct (H4 rid' r' Hr) as (Hq' & Hid' & Hin).
      split_and!; [done | done |]. rewrite lookup_insert_is_Some.
      destruct (decide (res_productId r = res_productId r')); auto.
  - by apply (ids_overwrite _ _ r).
  - done.
Qed.

Lemma world_of_discarded {A} (m : Async A) w :
  (andThen m (λ _, resolve tt) w).2 = (m w).2.
Proof. unfold andThen, resolve. by destruct (m w) as [[e|a] w']. Qed.

Lemma initializeInventory_consistent pid sk n loc w :
  consistent w → 0 ≤ n → consistent (initializeInventory pid sk n loc w).2.
Proof.
  intros Hw Hn. destruct (inventory w !! pid) as [cur|] eqn:Hpid.
  - rewrite initializeInventory_exists by done. simpl. by apply consistent_counters.
  - rewrite initializeInventory_new by done. simpl. by apply consistent_initialize.
Qed.

Lemma updateStock_consistent pid q ty ref w :
  consistent w → consistent (updateStock pid q ty ref w).2.
Proof.
  intros Hw. destruct (inventory w !! pid) as [cur|] eqn:Hpid.
  - destruct (decide (availableStock cur + q < 0)) as [Hq|Hq].
    + by rewrite (updateStock_insufficient _ _ _ _ _ cur).
    + rewrite (updateStock_done _ _ _ _ _ cur) by (done || lia). simpl.
      apply (consistent_updateStock _ _ cur); simpl; (done || lia).
  - by rewrite updateStock_missing.
Qed.

Lemma reserveStock_consistent pid q oid mins w :
  consistent w → 0 < q → consistent (reserveStock pid q oid mins w).2.
Proof.
  intros Hw Hq. destruct (inventory w !! pid) as [cur|] eqn:Hpid.
  - destruct (decide (availableStock cur < q)) as [Hlt|Hlt].
    + rewrite reserveStock_refused; [by apply consistent_counters; [|simpl; lia] |].
      intros cur' Hcur. by simplify_eq.
    + rewrite (reserveStock_done _ _ _ _ _ cur) by (done || lia). simpl.
      apply (consistent_reserveStock _ _ cur); simpl; (done || lia).
  - rewrite reserveStock_refused; [by apply consistent_counters; [|simpl; lia] |].
    intros cur' Hcur. by simplify_eq.
Qed.

Lemma confirmReservation_consistent rid w :
  consistent w → consistent (confirmReservation rid w).2.
Proof.
  intros Hw. destruct (reservations w !! rid) as [r|] eqn:Hrid.
  - destruct (decide (status r = ACTIVE)) as [Hst|Hst].
    + destruct (inventory w !! res_productId r) as [cur|] eqn:Hpid.
      * rewrite (confirmReservation_done _ _ r cur) by done. simpl.
        by apply (consistent_confirmReservation _ _ _ cur).
      * by rewrite (confirmReservation_orphan _ _ r).
    + by rewrite (confirmReservation_inactive _ _ r).
  - by rewrite confirmReservation_missing.
Qed.

Lemma cancelReservation_consistent rid w :
  consistent w → consistent (cancelReservation rid w).2.
Proof.
  intros Hw. destruct (reservations w !! rid) as [r|] eqn:Hrid.
  - destruct (decide (status r = ACTIVE)) as [Hst|Hst].
    + destruct (inventory w !! res_productId r) as [cur|] eqn:Hpid.
      * rewrite (cancelReservation_done _ _ r cur) by done. simpl.
        by apply (consistent_cancelReservation _ _ _ cur).
      * by rewrite (cancelReservation_orphan _ _ r).
    + by rewrite (cancelReservation_inactive _ _ r).
  - by rewrite cancelReservation_missing.
Qed.

(** One turn of the loop of [cleanupExpiredReservations]. *)
Lemma cancelEach_cons r items w :
  cancelEach (r :: items) w = cancelEach items (cancelReservation (reservationId r) w).2.
Proof.
  simpl. unfold andThen, tryCatch, resolve.
  by destruct (cancelReservation (reservationId r) w) as [[e|a] w'].
Qed.

Lemma cancelEach_returns items w : (cancelEach items w).1 = Return tt.
Proof.
  revert w. induction items as [|r items IH]; intros w; [done |].
  rewrite cancelEach_cons. apply IH.
Qed.

Lemma cancelEach_consistent items w :
  consistent w → consistent (cancelEach items w).2.
Proof.
  revert w. induction items as [|r items IH]; intros w Hw; [done |].
  rewrite cancelEach_cons. apply IH. by apply cancelReservation_consistent.
Qed.

Lemma cleanupExpiredReservations_eq w :
  cleanupExpiredReservations w =
  let w1 := mkWorld (inventory w) (reservations w) (stockMovements w) (S (ticks w)) (uuids w) in
  let items := (map_to_list (filter (λ kv, expired (clock (ticks w)) kv.2 = true)
                               (reservations w))).*2 in
  (Return (length items), (cancelEach items w1).2).
Proof.
  unfold cleanupExpiredReservations, andThen, Date_now, docClient_scan_reservations. simpl.
  pose proof (cancelEach_returns
    (map_to_list (filter (λ kv, expired (clock (ticks w)) kv.2 = true) (reservations w))).*2
    (mkWorld (inventory w) (reservations w) (stockMovements w) (S (ticks w)) (uuids w))) as Hret.
  destruct (cancelEach _ _) as [[e|[]] w']; [done | done].
Qed.

Lemma cleanupExpiredReservations_consistent w :
  consistent w → consistent (cleanupExpiredReservations w).2.
Proof.
  intros Hw. rewrite cleanupExpiredReservations_eq. simpl.
  apply cancelEach_consistent. by apply consistent_counters.
Qed.

Lemma after_consistent req w : consistent w → in_range req → consistent (after req w).
Proof.
  intros Hw Hreq. unfold after. destruct req; simpl in *; rewrite world_of_discarded.
  - by apply initializeInventory_consistent.
  - by apply updateStock_consistent.
  - by apply reserveStock_consistent.
  - by apply confirmReservation_consistent.
  - by apply cancelReservation_consistent.
  - by apply cleanupExpiredReservations_consistent.
Qed.

Lemma reachable_consistent w : reachable w → consistent w.
Proof.
  induction 1 as [t u | w req Hw IH Hreq].
  - apply consistent_empty.
  - by apply after_consistent.
Qed.

(** C1. Three-counter invariant: in every world reached by calls made one
    after the other from empty tables ([initializeInventory] with a
    non-negative [initialStock], [reserveStock] with a positive [quantity],
    and any [updateStock], [confirmReservation], [cancelReservation] and
    [cleanupExpiredReservations], whether they return or throw), every
    inventory record satisfies
    [availableStock + reservedStock = totalStock] and has its three counters
    at least 0.  Identifiers drawn from [uuidv4()] are assumed never to
    repeat. *)
Theorem three_counter_invariant w pid r :
  reachable w → inventory w !! pid = Some r →
  availableStock r + reservedStock r = totalStock r ∧
  0 ≤ availableStock r ∧ 0 ≤ reservedStock r ∧ 0 ≤ totalStock r.
Proof.
  intros Hw Hpid. apply reachable_consistent in Hw.
  destruct (counters_balance w Hw pid r Hpid) as [Hsum Hav].
  assert (0 ≤ reservedStock r) as Hre.
  { rewrite <- (counter_lookup reservedStock pid w r Hpid).
    rewrite <- (reserved_is_held w Hw pid). apply sum_table_nonneg.
    intros rid x Hx. destruct (reservation_sound w Hw rid x Hx) as (Hq & _).
    unfold held. case_bool_decide; lia. }
  lia.
Qed.

Lemma logs_nothing_refl w : logs_nothing w w.
Proof. by split. Qed.

Lemma logs_nothing_trans w1 w2 w3 :
  logs_nothing w1 w2 → logs_nothing w2 w3 → logs_nothing w1 w3.
Proof.
  intros [Hm12 Ht12] [Hm23 Ht23]. split; [congruence |].
  intros pid. by rewrite Ht23.
Qed.

Lemma logs_nothing_same_total w pid cur item res t u :
  inventory w !! pid = Some cur → totalStock item = totalStock cur →
  logs_nothing w (mkWorld (<[pid:=item]> (inventory w)) res (stockMovements w) t u).
Proof.
  intros Hpid Hto. split; [done |]. intros pid'. rewrite counter_insert.
  case_decide as Hd; [|done]. subst pid'. by rewrite (counter_lookup _ _ _ _ Hpid).
Qed.

Lemma logs_one_insert w pid item mv res t u :
  consistent w → mv_productId mv = pid →
  mv_quantity mv = totalStock item - counter totalStock pid w →
  logs_one w (mkWorld (<[pid:=item]> (inventory w)) res
                (<[uuid_stream (uuids w) := mv]> (stockMovements w)) t u).
Proof.
  intros Hw Hmp Hmq. exists (uuid_stream (uuids w)), mv. split_and!.
  - by apply fresh_movement.
  - done.
  - intros pid'. rewrite counter_insert, moved_of, Hmp.
    case_decide as Hd.
    + subst pid'. lia.
    + unfold counter. simpl. lia.
Qed.

Lemma initializeInventory_logs pid sk n loc w :
  consistent w →
  match (initializeInventory pid sk n loc w).1 with
  | Return _ => logs_one w (initializeInventory pid sk n loc w).2
  | Throw _ => logs_nothing w (initializeInventory pid sk n loc w).2
  end.
Proof.
  intros Hw. destruct (inventory w !! pid) as [cur|] eqn:Hpid.
  - rewrite initializeInventory_exists by done. simpl. by split.
  - rewrite initializeInventory_new by done. simpl.
    apply logs_one_insert; [done | done |]. simpl. unfold counter. rewrite Hpid. simpl. lia.
Qed.

Lemma updateStock_logs pid q ty ref w :
  consistent w →
  match (updateStock pid q ty ref w).1 with
  | Return _ => logs_one w (updateStock pid q ty ref w).2
  | Throw _ => logs_nothing w (updateStock pid q ty ref w).2
  end.
Proof.
  intros Hw. destruct (inventory w !! pid) as [cur|] eqn:Hpid.
  - destruct (decide (availableStock cur + q < 0)) as [Hq|Hq].
    + rewrite (updateStock_insufficient _ _ _ _ _ cur) by done. apply logs_nothing_refl.
    + rewrite (updateStock_done _ _ _ _ _ cur) by (done || lia). simpl.
      apply logs_one_insert; [done | done |]. simpl.
      rewrite (counter_lookup _ _ _ _ Hpid). lia.
  - rewrite updateStock_missing by done. apply logs_nothing_refl.
Qed.

Lemma confirmReservation_logs rid w :
  consistent w →
  match (confirmReservation rid w).1 with
  | Return _ => logs_one w (confirmReservation rid w).2
  | Throw _ => logs_nothing w (confirmReservation rid w).2
  end.
Proof.
  intros Hw. destruct (reservations w !! rid) as [r|] eqn:Hrid.
  - destruct (decide (status r = ACTIVE)) as [Hst|Hst].
    + destruct (inventory w !! res_productId r) as [cur|] eqn:Hpid.
      * rewrite (confirmReservation_done _ _ r cur) by done. simpl.
        apply logs_one_insert; [done | done |]. simpl.
        rewrite (counter_lookup _ _ _ _ Hpid). lia.
      * rewrite (confirmReservation_orphan _ _ r) by done. apply logs_nothing_refl.
    + rewrite (confirmReservation_inactive _ _ r) by done. apply logs_nothing_refl.
  - rewrite confirmReservation_missing by done. apply logs_nothing_refl.
Qed.

Lemma reserveStock_logs_nothing pid q oid mins w :
  logs_nothing w (reserveStock pid q oid mins w).2.
Proof.
  destruct (inventory w !! pid) as [cur|] eqn:Hpid.
  - destruct (decide (availableStock cur < q)) as [Hlt|Hlt].
    + rewrite reserveStock_refused; [by split |]. intros cur' Hcur. by simplify_eq.
    + rewrite (reserveStock_done _ _ _ _ _ cur) by (done || lia). simpl.
      by apply (logs_nothing_same_total _ _ cur).
  - rewrite reserveStock_refused; [by split |]. intros cur' Hcur. by simplify_eq.
Qed.

Lemma cancelReservation_logs_nothing rid w :
  logs_nothing w (cancelReservation rid w).2.
Proof.
  destruct (reservations w !! rid) as [r|] eqn:Hrid.
  - destruct (decide (status r = ACTIVE)) as [Hst|Hst].
    + destruct (inventory w !! res_productId r) as [cur|] eqn:Hpid.
      * rewrite (cancelReservation_done _ _ r cur) by done. simpl.
        by apply (logs_nothing_same_total _ _ cur).
      * rewrite (cancelReservation_orphan _ _ r) by done. apply logs_nothing_refl.
    + rewrite (cancelReservation_inactive _ _ r) by done. apply logs_nothing_refl.
  - rewrite cancelReservation_missing by done. apply logs_nothing_refl.
Qed.

Lemma cancelEach_logs_nothing items w : logs_nothing w (cancelEach items w).2.
Proof.
  revert w. induction items as [|r items IH]; intros w; [apply logs_nothing_refl |].
  rewrite cancelEach_cons.
  eapply logs_nothing_trans; [apply cancelReservation_logs_nothing | apply IH].
Qed.

Lemma cleanupExpiredReservations_logs_nothing w :
  logs_nothing w (cleanupExpiredReservations w).2.
Proof.
  rewrite cleanupExpiredReservations_eq. simpl.
  eapply logs_nothing_trans; [|apply cancelEach_logs_nothing]. by split.
Qed.

Lemma outcome_of_discarded {A} (m : Async A) w :
  (andThen m (λ _, resolve tt) w).1 =
  match (m w).1 with Return _ => Return tt | Throw e => Throw e end.
Proof. unfold andThen, resolve. by destruct (m w) as [[e|a] w']. Qed.

(** C9. Audit-trail reconstruction: in every world reached by calls made one
    after the other from empty tables, the signed quantities of the movements
    logged for a product add up to its current [totalStock].  Step by step: a
    call of [initializeInventory], [updateStock] or [confirmReservation] that
    returns logs exactly one movement, under a new identifier, whose quantity
    is the change of [totalStock] of its product; [reserveStock],
    [cancelReservation] and [cleanupExpiredReservations] log nothing and
    leave every [totalStock] unchanged, and so does every call that throws.
    Identifiers drawn from [uuidv4()] are assumed never to repeat. *)
Theorem audit_trail_reconstruction w :
  reachable w →
  (∀ pid r, inventory w !! pid = Some r →
     sum_table (moved pid) (stockMovements w) = totalStock r) ∧
  (∀ req, returns req w →
     match req with
     | InitializeInventory _ _ _ _ | UpdateStock _ _ _ _ | ConfirmReservation _ =>
         logs_one w (after req w)
     | ReserveStock _ _ _ _ | CancelReservation _ | CleanupExpiredReservations =>
         logs_nothing w (after req w)
     end) ∧
  (∀ req, ¬ returns req w → logs_nothing w (after req w)).
Proof.
  intros Hw. apply reachable_consistent in Hw. split_and!.
  - intros pid r Hpid. rewrite (total_is_moved w Hw pid). by apply counter_lookup.
  - intros req. unfold returns, after.
    destruct req as [pid sk n loc|pid q ty ref|pid q oid mins|rid|rid|]; simpl;
      rewrite outcome_of_discarded, world_of_discarded; intros Hret.
    + pose proof (initializeInventory_logs pid sk n loc w Hw) as Hlog.
      by destruct (initializeInventory pid sk n loc w).1.
    + pose proof (updateStock_logs pid q ty ref w Hw) as Hlog.
      by destruct (updateStock pid q ty ref w).1.
    + apply reserveStock_logs_nothing.
    + pose proof (confirmReservation_logs rid w Hw) as Hlog.
      by destruct (confirmReservation rid w).1.
    + apply cancelReservation_logs_nothing.
    + apply cleanupExpiredReservations_logs_nothing.
  - intros req. unfold returns, after.
    destruct req as [pid sk n loc|pid q ty ref|pid q oid mins|rid|rid|]; simpl;
      rewrite outcome_of_discarded, world_of_discarded; intros Hret.
    + pose proof (initializeInventory_logs pid sk n loc w Hw) as Hlog.
      by destruct (initializeInventory pid sk n loc w).1.
    + pose proof (updateStock_logs pid q ty ref w Hw) as Hlog.
      by destruct (updateStock pid q ty ref w).1.
    + apply reserveStock_logs_nothing.
    + pose proof (confirmReservation_logs rid w Hw) as Hlog.
      by destruct (confirmReservation rid w).1.
    + apply cancelReservation_logs_nothing.
    + apply cleanupExpiredReservations_logs_nothing.
Qed.

(** In a reachable world the quantities of the ACTIVE reservations of a
    product add up to its [reservedStock], which [totalStock] bounds. *)
Lemma held_within_total w pid r :
  reachable w → inventory w !! pid = Some r →
  sum_table (held pid) (reservations w) = reservedStock r ∧
  sum_table (held pid) (reservations w) ≤ totalStock r.
Proof.
  intros Hw Hpid. apply reachable_consistent in Hw.
  rewrite (reserved_is_held w Hw pid), (counter_lookup _ _ _ _ Hpid).
  destruct (counters_balance w Hw pid r Hpid). lia.
Qed.

End Invariant.

(** ** The methods one by one *)

Section Methods.
Context `{!Environment}.
Implicit Types (w : World).

(** A confirmation or cancellation that returns a receipt with a reservation
    found that reservation stored, ACTIVE, with a record for its product. *)
Lemma confirmReservation_returns rid w receipt w' :
  confirmReservation rid w = (Return receipt, w') →
  ∃ r cur, reservations w !! rid = Some r ∧ status r = ACTIVE ∧
           inventory w !! res_productId r = Some cur.
Proof.
  intros Hrun. destruct (reservations w !! rid) as [r|] eqn:Hrid.
  - destruct (decide (status r = ACTIVE)) as [Hst|Hst].
    + destruct (inventory w !! res_productId r) as [cur|] eqn:Hpid.
      * by exists r, cur.
      * by rewrite (confirmReservation_orphan _ _ r) in Hrun.
    + by rewrite (confirmReservation_inactive _ _ r) in Hrun.
  - by rewrite confirmReservation_missing in Hrun.
Qed.

Lemma cancelReservation_returns rid w receipt w' :
  cancelReservation rid w = (Return receipt, w') →
  ∃ r, reservations w !! rid = Some r ∧
       (status r = ACTIVE → is_Some (inventory w !! res_productId r)).
Proof.
  intros Hrun. destruct (reservations w !! rid) as [r|] eqn:Hrid.
  - exists r. split; [done |]. intros Hst.
    destruct (inventory w !! res_productId r) as [cur|] eqn:Hpid; [by eexists |].
    by rewrite (cancelReservation_orphan _ _ r) in Hrun.
  - by rewrite cancelReservation_missing in Hrun.
Qed.

(** C2 (as the code has it). A call of [reserveStock] for a product without
    an inventory record and a call for a product whose [availableStock] is
    below the requested quantity fail alike: both throw the error
    'Insufficient stock available' (kind InsufficientStock), and neither
    changes a table.  [reserveStock] has no separate not-found outcome. *)
Theorem reserve_refusal_is_insufficient_stock pid q oid mins w :
  inventory w !! pid = None ∨
  (∃ cur, inventory w !! pid = Some cur ∧ availableStock cur < q) →
  ∃ w', reserveStock pid q oid mins w =
          (Throw (Error "Insufficient stock available"), w') ∧
        errorKind (Error "Insufficient stock available") = InsufficientStock ∧
        same_tables w w'.
Proof.
  intros Hcase. eexists. split_and!.
  - apply reserveStock_refused. intros cur Hcur.
    destruct Hcase as [Hnone | (cur' & Hsome & Hlt)]; by simplify_eq.
  - done.
  - done.
Qed.

(** C4. A confirmation that returns found the reservation ACTIVE; with [q]
    its quantity, the record of its product has [reservedStock] and
    [totalStock] decreased by [q] and [availableStock] as before (and only
    [updatedAt] changed besides), the stored reservation is CONFIRMED, and
    exactly one movement has been put: of type SALE, of quantity [-q], with
    the reference 'Order: ' followed by the order id. *)
Theorem confirm_consumes_the_reservation rid w receipt w' :
  confirmReservation rid w = (Return receipt, w') →
  ∃ r cur item mv,
    reservations w !! rid = Some r ∧ status r = ACTIVE ∧
    inventory w !! res_productId r = Some cur ∧
    inventory w' = <[res_productId r := item]> (inventory w) ∧
    item = set_reserved_total (reservedStock cur - quantity r)
             (totalStock cur - quantity r) (clock (ticks w)) cur ∧
    reservedStock item = reservedStock cur - quantity r ∧
    totalStock item = totalStock cur - quantity r ∧
    availableStock item = availableStock cur ∧
    reservations w' = <[rid := set_status CONFIRMED r]> (reservations w) ∧
    status (set_status CONFIRMED r) = CONFIRMED ∧
    stockMovements w' = <[movementId mv := mv]> (stockMovements w) ∧
    movementId mv = uuid_stream (uuids w) ∧
    mv_productId mv = res_productId r ∧ mv_type mv = "SALE"%string ∧
    mv_quantity mv = - quantity r ∧
    reference mv = ("Order: " +:+ orderId r)%string.
Proof.
  intros Hrun. destruct (confirmReservation_returns _ _ _ _ Hrun) as (r & cur & Hrid & Hst & Hpid).
  rewrite (confirmReservation_done _ _ r cur) in Hrun by done. simpl in Hrun.
  injection Hrun as <- <-.
  exists r, cur,
    (set_reserved_total (reservedStock cur - quantity r) (totalStock cur - quantity r)
       (clock (ticks w)) cur),
    (mkMovement (uuid_stream (uuids w)) (res_productId r) "SALE" (- quantity r)
       ("Order: " +:+ orderId r) (clock (S (ticks w)))).
  split_and!; done.
Qed.

(** C5. Idempotent cancel: for a stored reservation (whose product has a
    record), the first [cancelReservation] returns and leaves the reservation
    resolved (CANCELLED when it was ACTIVE, with its quantity moved from
    [reservedStock] back to [availableStock]); the second returns the
    already-processed receipt and leaves the world, and so the three
    counters, exactly as the first call left it. *)
Theorem cancel_twice rid w r cur :
  reservations w !! rid = Some r →
  inventory w !! res_productId r = Some cur →
  ∃ receipt1 w1 r1 receipt2,
    cancelReservation rid w = (Return receipt1, w1) ∧
    reservations w1 !! rid = Some r1 ∧ status r1 ≠ ACTIVE ∧
    (status r = ACTIVE →
       r1 = set_status CANCELLED r ∧ alreadyProcessed receipt1 = false ∧
       inventory w1 !! res_productId r =
         Some (set_available_reserved (availableStock cur + quantity r)
                 (reservedStock cur - quantity r) (clock (ticks w)) cur)) ∧
    cancelReservation rid w1 = (Return receipt2, w1) ∧
    alreadyProcessed receipt2 = true.
Proof.
  intros Hrid Hpid. destruct (decide (status r = ACTIVE)) as [Hst|Hst].
  - rewrite (cancelReservation_done _ _ r cur) by done. simpl.
    do 4 eexists. split_and!.
    + done.
    + simpl. apply lookup_insert_eq.
    + done.
    + intros _. split_and!; [done | done |]. simpl. apply lookup_insert_eq.
    + apply (cancelReservation_inactive _ _ (set_status CANCELLED r)).
      * simpl. apply lookup_insert_eq.
      * done.
    + done.
  - rewrite (cancelReservation_inactive _ _ r) by done.
    do 4 eexists. split_and!; [done | done | done | done | |].
    + by apply (cancelReservation_inactive _ _ r).
    + done.
Qed.

(** C6. Confirm/cancel exclusivity: on a reservation whose stored status is
    CONFIRMED, [cancelReservation] returns the already-processed receipt and
    changes nothing in the world; on one whose stored status is CANCELLED,
    [confirmReservation] throws 'Reservation is not active' (kind
    InvalidState) and changes nothing; and on an identifier under which no
    reservation is stored, [confirmReservation] throws 'Reservation not
    found' (kind NotFound). *)
Theorem confirm_cancel_exclusive rid w :
  match reservations w !! rid with
  | None =>
      confirmReservation rid w = (Throw (Error "Reservation not found"), w) ∧
      errorKind (Error "Reservation not found") = NotFound
  | Some r =>
      match status r with
      | CONFIRMED =>
          ∃ receipt, cancelReservation rid w = (Return receipt, w) ∧
                     alreadyProcessed receipt = true
      | CANCELLED =>
          confirmReservation rid w = (Throw (Error "Reservation is not active"), w) ∧
          errorKind (Error "Reservation is not active") = InvalidState
      | ACTIVE => True
      end
  end.
Proof.
  destruct (reservations w !! rid) as [r|] eqn:Hrid.
  - destruct (status r) eqn:Hst; [done | |].
    + eexists. split; [apply (cancelReservation_inactive _ _ r); congruence | done].
    + split; [apply (confirmReservation_inactive _ _ r); congruence | done].
  - split; [by apply confirmReservation_missing | done].
Qed.

(** C7. [initializeInventory]: when the product has no record, the call
    returns the new record, stored under the product id, with
    [availableStock = totalStock = initialStock] and [reservedStock = 0], and
    puts one movement of type INITIAL and quantity [initialStock]; when the
    product has a record, the call throws 'Inventory already exists for this
    product' (kind AlreadyExists) and the three tables, the existing record
    included, are as before.  The test for absence is the condition of the
    put itself, a single storage operation. *)
Theorem initialize_creates_or_rejects pid sk n loc w :
  match inventory w !! pid with
  | None =>
      ∃ item mv w',
        initializeInventory pid sk n loc w = (Return item, w') ∧
        inventory w' = <[pid := item]> (inventory w) ∧
        productId item = pid ∧ sku item = sk ∧
        location item = default "default"%string loc ∧
        availableStock item = n ∧ totalStock item = n ∧ reservedStock item = 0 ∧
        reservations w' = reservations w ∧
        stockMovements w' = <[movementId mv := mv]> (stockMovements w) ∧
        movementId mv = uuid_stream (uuids w) ∧
        mv_productId mv = pid ∧ mv_type mv = "INITIAL"%string ∧ mv_quantity mv = n
  | Some cur =>
      ∃ w',
        initializeInventory pid sk n loc w =
          (Throw (Error "Inventory already exists for this product"), w') ∧
        errorKind (Error "Inventory already exists for this product") = AlreadyExists ∧
        same_tables w w' ∧ inventory w' !! pid = Some cur
  end.
Proof.
  destruct (inventory w !! pid) as [cur|] eqn:Hpid.
  - rewrite initializeInventory_exists by done. eexists. split_and!; done.
  - rewrite initializeInventory_new by done. cbv zeta.
    eexists _, (mkMovement (uuid_stream (uuids w)) pid "INITIAL" n "System initialization"
                  (clock (S (ticks w)))), _.
    split_and!; done.
Qed.

(** C10. The receipt of a confirmation, and of a cancellation that performs
    the cancellation, carries the reservation as it was read before the
    status was written: its [status] reads ACTIVE, while the reservation
    stored under the same identifier is CONFIRMED (respectively
    CANCELLED). *)
Theorem receipt_carries_the_reservation_as_read rid w receipt w' :
  (confirmReservation rid w = (Return receipt, w') →
   ∃ r, rc_reservation receipt = Some r ∧ reservations w !! rid = Some r ∧
        status r = ACTIVE ∧
        reservations w' !! rid = Some (set_status CONFIRMED r)) ∧
  (cancelReservation rid w = (Return receipt, w') →
   alreadyProcessed receipt = false →
   ∃ r, rc_reservation receipt = Some r ∧ reservations w !! rid = Some r ∧
        status r = ACTIVE ∧
        reservations w' !! rid = Some (set_status CANCELLED r)).
Proof.
  split.
  - intros Hrun.
    destruct (confirmReservation_returns _ _ _ _ Hrun) as (r & cur & Hrid & Hst & Hpid).
    rewrite (confirmReservation_done _ _ r cur) in Hrun by done. simpl in Hrun.
    injection Hrun as <- <-. exists r. simpl. split_and!; [done..|]. apply lookup_insert_eq.
  - intros Hrun Hperf.
    destruct (cancelReservation_returns _ _ _ _ Hrun) as (r & Hrid & Hinv).
    destruct (decide (status r = ACTIVE)) as [Hst|Hst].
    + destruct (Hinv Hst) as [cur Hpid].
      rewrite (cancelReservation_done _ _ r cur) in Hrun by done. simpl in Hrun.
      injection Hrun as <- <-. exists r. simpl. split_and!; [done..|]. apply lookup_insert_eq.
    + rewrite (cancelReservation_inactive _ _ r) in Hrun by done.
      injection Hrun as <- <-. done.
Qed.

End Methods.

(** ** Slices and sequences of calls *)

Section Slices.
Context `{!Environment}.
Implicit Types (w : World).

(** Resumed three times in a row, a call does what [reserveStock] does. *)
Lemma reserveStock_uninterrupted pid q oid mins w :
  interleave [0; 0; 0]%nat [Called pid q oid mins] w =
  ([Settled (reserveStock pid q oid mins w).1], (reserveStock pid q oid mins w).2).
Proof.
  unfold interleave, resume, reserveStock, reserveStock_resume, andThen, resolve, reject,
    getInventory, docClient_get_inventory, uuidv4, Date_now. simpl.
  destruct (inventory w !! pid) as [cur|]; simpl; [|done].
  destruct (bool_decide (availableStock cur < q)); simpl; done.
Qed.

(** The method is its scan followed by its loop. *)
Lemma cleanupExpiredReservations_slices w :
  cleanupExpiredReservations w = andThen cleanup_scan cleanup_sweep w.
Proof. reflexivity. Qed.

End Slices.

Section Batch.
Context `{!Environment}.
Implicit Types (w : World).

Lemma total_quantity_cons r l : total_quantity (r :: l) = quantity r + total_quantity l.
Proof. reflexivity. Qed.

(** Made one after the other, calls of [reserveStock] never grant more than
    the [availableStock] they started from. *)
Lemma sequential_reserves_do_not_oversell pid calls w cur :
  inventory w !! pid = Some cur → 0 ≤ availableStock cur →
  ∃ granted w' cur',
    reserveEach pid calls w = (Return granted, w') ∧
    inventory w' !! pid = Some cur' ∧
    availableStock cur' = availableStock cur - total_quantity granted ∧
    totalStock cur' = totalStock cur ∧
    0 ≤ availableStock cur' ∧
    total_quantity granted ≤ availableStock cur.
Proof.
  revert w cur. induction calls as [|[[q oid] mins] calls IH]; intros w cur Hpid Hav.
  - exists [], w, cur. unfold total_quantity. simpl. split_and!; (done || lia).
  - simpl. unfold andThen, tryCatch.
    destruct (decide (availableStock cur < q)) as [Hlt|Hlt].
    + rewrite reserveStock_refused by (intros cur' Hcur; by simplify_eq).
      destruct (IH (mkWorld (inventory w) (reservations w) (stockMovements w)
                      (S (ticks w)) (S (uuids w))) cur Hpid Hav)
        as (granted & w' & cur' & Hrun & Hpid' & Hav' & Hto' & Hnn & Hle).
      unfold resolve at 1. rewrite Hrun. by exists granted, w', cur'.
    + rewrite (reserveStock_done _ _ _ _ _ cur) by (done || lia). cbv zeta.
      unfold resolve at 1.
      edestruct (IH (mkWorld
                       (<[pid:=set_available_reserved (availableStock cur - q)
                                 (reservedStock cur + q) (clock (ticks w)) cur]> (inventory w))
                       (<[uuid_stream (uuids w) :=
                            mkReservation (uuid_stream (uuids w)) pid oid q ACTIVE
                              (clock (ticks w))
                              (clock (ticks w) + default 15 mins * 60 * 1000)]>
                          (reservations w))
                       (stockMovements w) (S (ticks w)) (S (uuids w))))
        as (granted & w' & cur' & Hrun & Hpid' & Hav' & Hto' & Hnn & Hle).
      { simpl. apply lookup_insert_eq. }
      { simpl. lia. }
      rewrite Hrun. eexists _, w', cur'. split; [reflexivity |].
      simpl in *. rewrite total_quantity_cons. simpl. split_and!; (done || lia).
Qed.

End Batch.

(** ** The sweep *)

Section Sweep.
Context `{!Environment}.
Implicit Types (w : World).

Lemma cancelEach_reclaims (l : list Reservation) w :
  consistent w →
  NoDup (reservationId <$> l) →
  (∀ r, r ∈ l → reservations w !! reservationId r = Some r ∧ status r = ACTIVE) →
  ∀ rid, reservations (cancelEach l w).2 !! rid =
         if bool_decide (rid ∈ reservationId <$> l)
         then set_status CANCELLED <$> reservations w !! rid
         else reservations w !! rid.
Proof.
  revert w. induction l as [|r l IH]; intros w Hw Hnd Hl rid.
  - case_bool_decide as Hin; [by apply not_elem_of_nil in Hin | done].
  - rewrite cancelEach_cons. rewrite fmap_cons in Hnd. apply NoDup_cons in Hnd as [Hr Hnd].
    destruct (Hl r) as [Hrid Hst]; [apply elem_of_cons; by left |].
    destruct (reservation_sound w Hw _ r Hrid) as (_ & _ & [cur Hpid]).
    pose proof (cancelReservation_consistent (reservationId r) w Hw) as Hw1.
    rewrite (cancelReservation_done _ _ r cur) in Hw1 |- * by done.
    simpl in Hw1 |- *.
    rewrite IH; [| done | done |]; simpl.
    + destruct (decide (rid = reservationId r)) as [->|Hne].
      * rewrite (bool_decide_eq_false_2 (reservationId r ∈ reservationId <$> l)) by done.
        rewrite bool_decide_eq_true_2 by (apply elem_of_cons; by left).
        by rewrite lookup_insert_eq, Hrid.
      * rewrite lookup_insert_ne by done.
        destruct (decide (rid ∈ reservationId <$> l)) as [Hin|Hin].
        -- rewrite !bool_decide_eq_true_2; [done | apply elem_of_cons; by right | done].
        -- rewrite !bool_decide_eq_false_2; [done | | done].
           intros [?|?]%elem_of_cons; done.
    + intros r' Hr'. destruct (Hl r') as [Hrid' Hst']; [apply elem_of_cons; by right |].
      split; [|done]. rewrite lookup_insert_ne; [done |].
      intros Heq. apply Hr. rewrite Heq. by apply list_elem_of_fmap_2.
Qed.

Lemma scanned_ids w now :
  consistent w →
  reservationId <$> (map_to_list (filter (λ kv, expired now kv.2 = true) (reservations w))).*2
  = (map_to_list (filter (λ kv, expired now kv.2 = true) (reservations w))).*1.
Proof.
  intros Hw. rewrite <- list_fmap_compose. apply list_fmap_ext.
  intros i [rid r] Hi. simpl.
  apply list_elem_of_lookup_2, elem_of_map_to_list, map_lookup_filter_Some in Hi as [Hr _].
  by destruct (reservation_sound w Hw rid r Hr) as (_ & -> & _).
Qed.

Lemma scanned_id_iff w now rid :
  consistent w →
  rid ∈ reservationId <$>
          (map_to_list (filter (λ kv, expired now kv.2 = true) (reservations w))).*2
  ↔ ∃ r, reservations w !! rid = Some r ∧ expired now r = true.
Proof.
  intros Hw. rewrite scanned_ids by done. rewrite list_elem_of_fmap. split.
  - intros ([rid' r] & -> & Hin). exists r.
    by apply elem_of_map_to_list, map_lookup_filter_Some in Hin.
  - intros (r & Hr & Hex). exists (rid, r). split; [done |].
    by apply elem_of_map_to_list, map_lookup_filter_Some.
Qed.

Lemma expired_active now r : expired now r = true → status r = ACTIVE.
Proof.
  unfold expired. intros [Hst _]%andb_prop. by apply bool_decide_eq_true in Hst.
Qed.

Lemma held_reclaim now pid r :
  held pid (reclaim now r) = held pid r - (if expired now r then held pid r else 0).
Proof.
  unfold reclaim. destruct (expired now r) eqn:Hex; [|lia].
  rewrite held_resolved by done. lia.
Qed.

Lemma cancelReservation_keeps_records rid w pid :
  is_Some (inventory w !! pid) → is_Some (inventory (cancelReservation rid w).2 !! pid).
Proof.
  intros Hpid. destruct (reservations w !! rid) as [r|] eqn:Hrid.
  - destruct (decide (status r = ACTIVE)) as [Hst|Hst].
    + destruct (inventory w !! res_productId r) as [cur|] eqn:Hcur.
      * rewrite (cancelReservation_done _ _ r cur) by done. simpl.
        rewrite lookup_insert_is_Some. destruct (decide (res_productId r = pid)); auto.
      * by rewrite (cancelReservation_orphan _ _ r).
    + by rewrite (cancelReservation_inactive _ _ r).
  - by rewrite cancelReservation_missing.
Qed.

Lemma cancelEach_keeps_records items w pid :
  is_Some (inventory w !! pid) → is_Some (inventory (cancelEach items w).2 !! pid).
Proof.
  revert w. induction items as [|r items IH]; intros w Hpid; [done |].
  rewrite cancelEach_cons. by apply IH, cancelReservation_keeps_records.
Qed.

Lemma cleanupExpiredReservations_keeps_records w pid :
  is_Some (inventory w !! pid) → is_Some (inventory (cleanupExpiredReservations w).2 !! pid).
Proof.
  intros Hpid. rewrite cleanupExpiredReservations_eq. simpl.
  by apply cancelEach_keeps_records.
Qed.

(** A sweep over a consistent world: it returns the number of ACTIVE
    reservations past their deadline, each of which is CANCELLED afterwards,
    with its quantity moved from [reservedStock] back to [availableStock];
    the other reservations, the movement log and every [totalStock] are as
    before. *)
Lemma sweep_reclaims_expired w :
  consistent w →
  let now := clock (ticks w) in
  let run := cleanupExpiredReservations w in
  run.1 = Return (size (filter (λ kv, expired now kv.2 = true) (reservations w))) ∧
  reservations run.2 = reclaim now <$> reservations w ∧
  consistent run.2 ∧
  logs_nothing w run.2 ∧
  ∀ pid r, inventory w !! pid = Some r →
    ∃ r', inventory run.2 !! pid = Some r' ∧
      availableStock r' = availableStock r +
        sum_table (λ x, if expired now x then held pid x else 0) (reservations w) ∧
      reservedStock r' = reservedStock r -
        sum_table (λ x, if expired now x then held pid x else 0) (reservations w).
Proof.
  intros Hw now run.
  assert (reservations run.2 = reclaim now <$> reservations w) as Hres.
  { subst run. rewrite cleanupExpiredReservations_eq. cbv zeta. simpl. apply map_eq. intros rid.
    rewrite cancelEach_reclaims.
    - simpl. rewrite lookup_fmap. fold now.
      destruct (reservations w !! rid) as [r|] eqn:Hr; simpl.
      + unfold reclaim. destruct (expired now r) eqn:Hex.
        * rewrite bool_decide_eq_true_2; [done |].
          apply scanned_id_iff; [done |]. by exists r.
        * rewrite bool_decide_eq_false_2; [done |]. intros Hin.
          apply scanned_id_iff in Hin as (r' & Hr' & Hex'); [|done].
          rewrite Hr in Hr'. injection Hr' as <-. subst now. congruence.
      + by case_bool_decide.
    - by apply consistent_counters.
    - rewrite scanned_ids by done. apply NoDup_fst_map_to_list.
    - simpl. intros r Hin. apply list_elem_of_fmap in Hin as ([k r'] & -> & Hin).
      apply elem_of_map_to_list, map_lookup_filter_Some in Hin as [Hr Hex]. simpl in *.
      destruct (reservation_sound w Hw k r' Hr) as (_ & -> & _).
      split; [done | by apply (expired_active (clock (ticks w)))]. }
  assert (consistent run.2) as Hw' by by apply cleanupExpiredReservations_consistent.
  assert (logs_nothing w run.2) as Hlog by apply cleanupExpiredReservations_logs_nothing.
  split_and!; [| done | done | done |].
  - subst run. rewrite cleanupExpiredReservations_eq. cbv zeta. simpl.
    by rewrite length_fmap, length_map_to_list.
  - intros pid r Hpid.
    pose proof (reserved_is_held _ Hw' pid) as Hheld'.
    pose proof (reserved_is_held _ Hw pid) as Hheld.
    destruct Hlog as [_ Htot]. specialize (Htot pid).
    rewrite (counter_lookup _ _ _ _ Hpid) in Hheld.
    rewrite (counter_lookup _ _ _ _ Hpid) in Htot.
    rewrite Hres, sum_table_fmap in Hheld'.
    rewrite (sum_table_ext _ (λ x, held pid x - (if expired now x then held pid x else 0)))
      in Hheld' by (intros; apply held_reclaim).
    rewrite sum_table_minus, Hheld in Hheld'.
    destruct (inventory run.2 !! pid) as [r'|] eqn:Hpid'.
    + exists r'. rewrite (counter_lookup _ _ _ _ Hpid') in Hheld'.
      rewrite (counter_lookup _ _ _ _ Hpid') in Htot.
      destruct (counters_balance _ Hw' pid r' Hpid') as [Hbal' _].
      destruct (counters_balance _ Hw pid r Hpid) as [Hbal _].
      split_and!; [done | lia | lia].
    + exfalso. unfold counter in Htot.
      destruct (cleanupExpiredReservations_keeps_records w pid) as [r' Hr']; [by eexists |].
      subst run. congruence.
Qed.

(** A reservation that a sweep has reclaimed is CANCELLED, is not selected by
    the scan of a later sweep, whatever the clock reads then, and is left as
    it is by that sweep. *)
Lemma reclaimed_once w rid r :
  consistent w →
  reservations w !! rid = Some r → expired (clock (ticks w)) r = true →
  let w1 := (cleanupExpiredReservations w).2 in
  let w2 := (cleanupExpiredReservations w1).2 in
  reservations w1 !! rid = Some (set_status CANCELLED r) ∧
  expired (clock (ticks w1)) (set_status CANCELLED r) = false ∧
  reservations w2 !! rid = Some (set_status CANCELLED r).
Proof.
  intros Hw Hr Hex w1 w2.
  destruct (sweep_reclaims_expired w Hw) as (_ & Hres1 & Hw1 & _).
  destruct (sweep_reclaims_expired w1 Hw1) as (_ & Hres2 & _).
  assert (reservations w1 !! rid = Some (set_status CANCELLED r)) as Hr1.
  { subst w1. rewrite Hres1, lookup_fmap, Hr. simpl. unfold reclaim. by rewrite Hex. }
  split_and!; [done | done |].
  subst w2. rewrite Hres2, lookup_fmap, Hr1. done.
Qed.

End Sweep.

(** ** The concrete environment *)

Lemma demo_uuid_unique : Inj (=) (=) (@uuid_stream demo_environment).
Proof.
  intros n m Heq. simpl in Heq. apply (inj (String.app "id-")) in Heq.
  by apply (inj pretty) in Heq.
Qed.

Lemma demo_run_snoc reqs req :
  demo_run (reqs ++ [req]) = @after demo_environment req (demo_run reqs).
Proof. unfold demo_run. by rewrite foldl_app. Qed.

Lemma demo_run_reachable reqs :
  Forall in_range reqs → @reachable demo_environment (demo_run reqs).
Proof.
  induction reqs as [|req reqs IH] using rev_ind; intros Hreqs.
  - apply reachable_empty.
  - rewrite demo_run_snoc. apply Forall_app in Hreqs as [Hreqs Hreq].
    apply reachable_after; [by apply IH | by inversion Hreq].
Qed.

Lemma demo_requests_in_range : Forall in_range demo_requests.
Proof. repeat constructor; simpl; lia. Qed.

Lemma three_counter_invariant_witness :
  ∃ r, inventory (demo_run demo_requests) !! "p1"%string = Some r ∧
       availableStock r + reservedStock r = totalStock r ∧
       0 ≤ availableStock r ∧ 0 ≤ reservedStock r ∧ 0 ≤ totalStock r.
Proof.
  eexists. split; [vm_compute; reflexivity |].
  apply (@three_counter_invariant demo_environment demo_uuid_unique
           (demo_run demo_requests) "p1"%string).
  - apply demo_run_reachable, demo_requests_in_range.
  - vm_compute; reflexivity.
Defined.

(** C3. No oversell does not survive interleaving.  [reserveStock] reads the
    record, checks [availableStock] and writes the new counters in separate
    storage operations, without a condition on the write.  Two calls that
    each ask for all 10 units of a product, resumed in turn, both pass the
    check on the same reading, and both are granted: the product ends with
    two ACTIVE reservations of 10 against a [totalStock] of 10
    ([reservedStock] is 10 and [availableStock] 0, the second write having
    replaced the first).  [sequential_reserves_do_not_oversell] and
    [held_within_total] are what holds when the calls do not overlap. *)
Theorem interleaved_reserves_oversell :
  let run := @interleave demo_environment oversell_schedule oversell_pool oversell_world in
  @reachable demo_environment oversell_world ∧
  counter totalStock "p1" oversell_world = 10 ∧
  run.1 = [Settled (Return oversell_first); Settled (Return oversell_second)] ∧
  reservations run.2 !! "id-1"%string = Some oversell_first ∧
  reservations run.2 !! "id-2"%string = Some oversell_second ∧
  sum_table (claimed "p1") (reservations run.2) = 20 ∧
  counter totalStock "p1" run.2 = 10 ∧
  counter reservedStock "p1" run.2 = 10 ∧
  counter availableStock "p1" run.2 = 0 ∧
  ¬ sum_table (claimed "p1") (reservations run.2) ≤ counter totalStock "p1" run.2.
Proof.
  cbv zeta. split.
  { apply demo_run_reachable. repeat constructor; simpl; lia. }
  split_and!; try (vm_compute; reflexivity).
  vm_compute. intros Hle. by apply Hle.
Qed.

(** C8. The count that [cleanupExpiredReservations] returns is the number of
    items of its scan, not the number of reservations it reclaimed.  First
    run: the only expired ACTIVE reservation belongs to a product without an
    inventory record, so its cancellation throws; the loop catches the error,
    the call returns [cleaned = 1], no table has changed, the reservation is
    still ACTIVE, and the next sweep counts it again.  Second run: a
    confirmation of the scanned reservation completes between the scan and
    the loop; the cancellation finds it CONFIRMED and does nothing, and the
    sweep still returns 1 with [availableStock] where it was.
    [sweep_reclaims_expired] and [reclaimed_once] are what holds when every
    cancellation of the loop succeeds. *)
Theorem cleanup_counts_what_it_did_not_reclaim :
  (let run := @cleanupExpiredReservations demo_environment orphan_world in
   expired (@clock demo_environment 0) orphan_reservation = true ∧
   run.1 = Return 1%nat ∧
   same_tables orphan_world run.2 ∧
   reservations run.2 !! "r1"%string = Some orphan_reservation ∧
   (@cleanupExpiredReservations demo_environment run.2).1 = Return 1%nat) ∧
  (let scan := @cleanup_scan demo_environment stale_world in
   let confirmed := @confirmReservation demo_environment "id-1" scan.2 in
   @reachable demo_environment stale_world ∧
   ∃ r, scan.1 = Return [r] ∧ reservationId r = "id-1"%string ∧
        status r = ACTIVE ∧ quantity r = 10 ∧
        (∃ receipt, confirmed.1 = Return receipt) ∧
        let sweep := @cleanup_sweep demo_environment [r] confirmed.2 in
        sweep.1 = Return 1%nat ∧
        same_tables confirmed.2 sweep.2 ∧
        status <$> reservations sweep.2 !! "id-1"%string = Some CONFIRMED ∧
        counter availableStock "p1" stale_world = 40 ∧
        counter availableStock "p1" sweep.2 = 40).
Proof.
  cbv zeta. split.
  - split_and!; try (vm_compute; reflexivity). split_and!; vm_compute; reflexivity.
  - split.
    + apply demo_run_reachable. repeat constructor; simpl; lia.
    + exists (mkReservation "id-1" "p1" "orderA" 10 ACTIVE 1700000000002 1700000000002).
      split_and!; try (vm_compute; reflexivity).
      * exists (mkReceipt true None
                  (Some (mkReservation "id-1" "p1" "orderA" 10 ACTIVE 1700000000002
                           1700000000002))).
        vm_compute. reflexivity.
      * split_and!; vm_compute; reflexivity.
Qed.

(** C2, refuted as stated: a call of [reserveStock] for a product that has no
    inventory record does not fail with a not-found error.  It throws
    'Insufficient stock available', the very outcome of a call that asks a
    known product for more than its [availableStock]. *)
Lemma reserve_of_unknown_product_is_not_NotFound :
  inventory empty_world !! "ghost"%string = None ∧
  (@reserveStock demo_environment "ghost" 1 "orderA" None empty_world).1 =
    Throw (Error "Insufficient stock available") ∧
  ¬ (∃ e, (@reserveStock demo_environment "ghost" 1 "orderA" None empty_world).1 = Throw e ∧
          errorKind e = NotFound) ∧
  counter availableStock "p1" (demo_run demo_requests) = 40 ∧
  (@reserveStock demo_environment "p1" 1000 "orderC" None (demo_run demo_requests)).1 =
    (@reserveStock demo_environment "ghost" 1 "orderA" None empty_world).1.
Proof.
  split_and!; try (vm_compute; reflexivity).
  intros (e & He & Hkind). vm_compute in He. injection He as <-.
  vm_compute in Hkind. discriminate.
Qed.

Lemma reserve_refusal_is_insufficient_stock_witness :
  (∃ w', @reserveStock demo_environment "ghost" 1 "orderA" None empty_world =
           (Throw (Error "Insufficient stock available"), w') ∧
         errorKind (Error "Insufficient stock available") = InsufficientStock ∧
         same_tables empty_world w') ∧
  (∃ w', @reserveStock demo_environment "p1" 1000 "orderC" None (demo_run demo_requests) =
           (Throw (Error "Insufficient stock available"), w') ∧
         errorKind (Error "Insufficient stock available") = InsufficientStock ∧
         same_tables (demo_run demo_requests) w').
Proof.
  split.
  - apply (@reserve_refusal_is_insufficient_stock demo_environment). left.
    vm_compute; reflexivity.
  - apply (@reserve_refusal_is_insufficient_stock demo_environment). right.
    eexists. split; [vm_compute; reflexivity | vm_compute; reflexivity].
Defined.

Lemma confirm_consumes_the_reservation_witness :
  ∃ r cur item mv,
    reservations reserved_world !! "id-1"%string = Some r ∧ status r = ACTIVE ∧
    inventory reserved_world !! res_productId r = Some cur ∧
    inventory (@confirmReservation demo_environment "id-1" reserved_world).2 =
      <[res_productId r := item]> (inventory reserved_world) ∧
    item = set_reserved_total (reservedStock cur - quantity r)
             (totalStock cur - quantity r)
             (@clock demo_environment (ticks reserved_world)) cur ∧
    reservedStock item = reservedStock cur - quantity r ∧
    totalStock item = totalStock cur - quantity r ∧
    availableStock item = availableStock cur ∧
    reservations (@confirmReservation demo_environment "id-1" reserved_world).2 =
      <["id-1"%string := set_status CONFIRMED r]> (reservations reserved_world) ∧
    status (set_status CONFIRMED r) = CONFIRMED ∧
    stockMovements (@confirmReservation demo_environment "id-1" reserved_world).2 =
      <[movementId mv := mv]> (stockMovements reserved_world) ∧
    movementId mv = @uuid_stream demo_environment (uuids reserved_world) ∧
    mv_productId mv = res_productId r ∧ mv_type mv = "SALE"%string ∧
    mv_quantity mv = - quantity r ∧
    reference mv = ("Order: " +:+ orderId r)%string.
Proof.
  apply (@confirm_consumes_the_reservation demo_environment "id-1" reserved_world
           (mkReceipt true None (Some reserved_reservation))).
  vm_compute; reflexivity.
Defined.

Lemma cancel_twice_witness :
  ∃ receipt1 w1 r1 receipt2,
    @cancelReservation demo_environment "id-1" reserved_world = (Return receipt1, w1) ∧
    reservations w1 !! "id-1"%string = Some r1 ∧ status r1 ≠ ACTIVE ∧
    (status reserved_reservation = ACTIVE →
       r1 = set_status CANCELLED reserved_reservation ∧
       alreadyProcessed receipt1 = false ∧
       inventory w1 !! res_productId reserved_reservation =
         Some (set_available_reserved 50 0
                 (@clock demo_environment (ticks reserved_world))
                 (mkInventory "p1" "SKU1" 40 10 50 "WH-A" 10 20 50 1700000000000
                    1700000000000 1700000000002))) ∧
    @cancelReservation demo_environment "id-1" w1 = (Return receipt2, w1) ∧
    alreadyProcessed receipt2 = true.
Proof.
  apply (@cancel_twice demo_environment "id-1" reserved_world reserved_reservation
           (mkInventory "p1" "SKU1" 40 10 50 "WH-A" 10 20 50 1700000000000
              1700000000000 1700000000002)).
  - vm_compute; reflexivity.
  - vm_compute; reflexivity.
Defined.

Lemma audit_trail_reconstruction_witness :
  sum_table (moved "p1") (stockMovements (demo_run demo_requests)) = 40 ∧
  counter totalStock "p1" (demo_run demo_requests) = 40.
Proof.
  destruct (@audit_trail_reconstruction demo_environment demo_uuid_unique
              (demo_run demo_requests)
              (demo_run_reachable demo_requests demo_requests_in_range)) as [Hsum _].
  split; [|vm_compute; reflexivity].
  apply (Hsum "p1"%string
           (mkInventory "p1" "SKU1" 40 0 40 "WH-A" 10 20 50 1700000000000
              1700000000000 1700000000006)).
  vm_compute; reflexivity.
Defined.

Lemma receipt_carries_the_reservation_as_read_witness :
  (∃ r, rc_reservation (mkReceipt true None (Some reserved_reservation)) = Some r ∧
        reservations reserved_world !! "id-1"%string = Some r ∧ status r = ACTIVE ∧
        reservations (@confirmReservation demo_environment "id-1" reserved_world).2
          !! "id-1"%string = Some (set_status CONFIRMED r)) ∧
  (∃ r, rc_reservation (mkReceipt true None (Some reserved_reservation)) = Some r ∧
        reservations reserved_world !! "id-1"%string = Some r ∧ status r = ACTIVE ∧
        reservations (@cancelReservation demo_environment "id-1" reserved_world).2
          !! "id-1"%string = Some (set_status CANCELLED r)).
Proof.
  split.
  - apply (@receipt_carries_the_reservation_as_read demo_environment "id-1" reserved_world
             (mkReceipt true None (Some reserved_reservation))).
    vm_compute; reflexivity.
  - apply (@receipt_carries_the_reservation_as_read demo_environment "id-1" reserved_world
             (mkReceipt true None (Some reserved_reservation))
             (@cancelReservation demo_environment "id-1" reserved_world).2).
    + vm_compute; reflexivity.
    + reflexivity.
Defined.

(** ** More on the methods *)

Section MoreMethods.
Context `{!Environment}.
Implicit Types (w : World).

(** X1. [updateStock]: for a product without a record the call throws
    'Inventory not found for this product'; when the adjustment would make
    [availableStock] negative it throws 'Insufficient stock for this
    operation'; in both cases the world is as before.  Otherwise it returns
    the new record, with [availableStock] and [totalStock] changed by
    [quantity] and [reservedStock] as before, and puts one movement with the
    given type and reference ('ADJUSTMENT' and the empty string when they are
    left out).  The test reads [availableStock] only, so a negative adjustment
    cannot take units that are reserved. *)
Theorem updateStock_adjusts_or_rejects pid q ty ref w :
  match inventory w !! pid with
  | None =>
      updateStock pid q ty ref w =
        (Throw (Error "Inventory not found for this product"), w)
  | Some cur =>
      if bool_decide (availableStock cur + q < 0)
      then updateStock pid q ty ref w =
             (Throw (Error "Insufficient stock for this operation"), w)
      else ∃ item mv w',
             updateStock pid q ty ref w = (Return (Some item), w') ∧
             inventory w' = <[pid := item]> (inventory w) ∧
             item = set_available_total (availableStock cur + q) (totalStock cur + q)
                      (clock (ticks w)) cur ∧
             availableStock item = availableStock cur + q ∧
             totalStock item = totalStock cur + q ∧
             reservedStock item = reservedStock cur ∧
             reservations w' = reservations w ∧
             stockMovements w' = <[movementId mv := mv]> (stockMovements w) ∧
             movementId mv = uuid_stream (uuids w) ∧
             mv_productId mv = pid ∧ mv_quantity mv = q ∧
             mv_type mv = default "ADJUSTMENT"%string ty ∧
             reference mv = default ""%string ref
  end.
Proof.
  destruct (inventory w !! pid) as [cur|] eqn:Hpid.
  - case_bool_decide as Hq.
    + by apply (updateStock_insufficient _ _ _ _ _ cur).
    + rewrite (updateStock_done _ _ _ _ _ cur) by (done || lia). cbv zeta.
      eexists _, (mkMovement (uuid_stream (uuids w)) pid (default "ADJUSTMENT"%string ty) q
                    (default ""%string ref) (clock (S (ticks w)))), _.
      split_and!; done.
  - by apply updateStock_missing.
Qed.

(** X2. A call of [reserveStock] for a product that has a record with at
    least [quantity] units available returns an ACTIVE reservation, stored
    under the identifier just drawn, that expires [expirationMinutes] (15 when
    left out) times 60000 milliseconds after its creation; the quantity moves
    from [availableStock] to [reservedStock], [totalStock] stays, and no
    movement is logged.  The method puts no lower bound on [quantity]. *)
Theorem reserve_holds_stock pid q oid mins w cur :
  inventory w !! pid = Some cur → q ≤ availableStock cur →
  ∃ r item w',
    reserveStock pid q oid mins w = (Return r, w') ∧
    reservationId r = uuid_stream (uuids w) ∧ res_productId r = pid ∧
    orderId r = oid ∧ quantity r = q ∧ status r = ACTIVE ∧
    res_createdAt r = clock (ticks w) ∧
    expiresAt r = res_createdAt r + default 15 mins * 60000 ∧
    reservations w' = <[reservationId r := r]> (reservations w) ∧
    inventory w' = <[pid := item]> (inventory w) ∧
    availableStock item = availableStock cur - q ∧
    reservedStock item = reservedStock cur + q ∧
    totalStock item = totalStock cur ∧
    stockMovements w' = stockMovements w.
Proof.
  intros Hpid Hq. rewrite (reserveStock_done _ _ _ _ _ cur) by done. cbv zeta.
  eexists (mkReservation _ _ _ _ _ _ _), _, _. split; [reflexivity |]. simpl.
  split_and!; (done || lia).
Qed.

(** X3. Reserve, then cancel: the record of the product has its three
    counters back at their values before the reservation, the reservation is
    stored CANCELLED, and the movement log is as before. *)
Theorem reserve_then_cancel_restores pid q oid mins w cur :
  inventory w !! pid = Some cur → q ≤ availableStock cur →
  ∃ r w1 receipt w2 item,
    reserveStock pid q oid mins w = (Return r, w1) ∧
    cancelReservation (reservationId r) w1 = (Return receipt, w2) ∧
    rc_reservation receipt = Some r ∧
    inventory w2 = <[pid := item]> (inventory w) ∧
    availableStock item = availableStock cur ∧
    reservedStock item = reservedStock cur ∧
    totalStock item = totalStock cur ∧
    reservations w2 = <[reservationId r := set_status CANCELLED r]> (reservations w) ∧
    stockMovements w2 = stockMovements w.
Proof.
  intros Hpid Hq. rewrite (reserveStock_done _ _ _ _ _ cur) by done. cbv zeta.
  eexists _, _, _, _, _. split; [reflexivity |]. simpl.
  rewrite (cancelReservation_done _ _
             (mkReservation (uuid_stream (uuids w)) pid oid q ACTIVE (clock (ticks w))
                (clock (ticks w) + default 15 mins * 60 * 1000))
             (set_available_reserved (availableStock cur - q) (reservedStock cur + q)
                (clock (ticks w)) cur));
    [| simpl; apply lookup_insert_eq | done | simpl; apply lookup_insert_eq].
  cbv zeta. simpl. split; [reflexivity |]. split; [reflexivity |].
  rewrite !insert_insert_eq. split; [reflexivity |]. simpl. split_and!; (done || lia).
Qed.

(** X4. Reserve, then confirm: together they are a sale of [quantity] units,
    [availableStock] and [totalStock] both down by [quantity] and
    [reservedStock] back at its value, with the reservation stored CONFIRMED
    and one SALE movement of [-quantity] that refers to the order. *)
Theorem reserve_then_confirm_sells pid q oid mins w cur :
  inventory w !! pid = Some cur → q ≤ availableStock cur →
  ∃ r w1 receipt w2 item mv,
    reserveStock pid q oid mins w = (Return r, w1) ∧
    confirmReservation (reservationId r) w1 = (Return receipt, w2) ∧
    inventory w2 = <[pid := item]> (inventory w) ∧
    availableStock item = availableStock cur - q ∧
    reservedStock item = reservedStock cur ∧
    totalStock item = totalStock cur - q ∧
    reservations w2 = <[reservationId r := set_status CONFIRMED r]> (reservations w) ∧
    stockMovements w2 = <[movementId mv := mv]> (stockMovements w) ∧
    mv_productId mv = pid ∧ mv_type mv = "SALE"%string ∧ mv_quantity mv = - q ∧
    reference mv = ("Order: " +:+ oid)%string.
Proof.
  intros Hpid Hq. rewrite (reserveStock_done _ _ _ _ _ cur) by done. cbv zeta.
  eexists _, _, _, _, _,
    (mkMovement (uuid_stream (S (uuids w))) pid "SALE" (- q) ("Order: " +:+ oid)
       (clock (S (S (ticks w))))).
  split; [reflexivity |]. simpl.
  rewrite (confirmReservation_done _ _
             (mkReservation (uuid_stream (uuids w)) pid oid q ACTIVE (clock (ticks w))
                (clock (ticks w) + default 15 mins * 60 * 1000))
             (set_available_reserved (availableStock cur - q) (reservedStock cur + q)
                (clock (ticks w)) cur));
    [| simpl; apply lookup_insert_eq | done | simpl; apply lookup_insert_eq].
  cbv zeta. simpl. split; [reflexivity |].
  rewrite !insert_insert_eq. split; [reflexivity |]. simpl. split_and!; (done || lia).
Qed.

End MoreMethods.

(** ** What every call keeps *)

Section Frames.
Context `{!Environment}.
Implicit Types (w : World).

Lemma same_identity_refl r : same_identity r r.
Proof. by repeat split. Qed.

Lemma same_identity_trans r1 r2 r3 :
  same_identity r1 r2 → same_identity r2 r3 → same_identity r1 r3.
Proof. unfold same_identity. intros ? ?. destruct_and!. split_and!; congruence. Qed.

Lemma keeps_records_refl w : keeps_records w w.
Proof. intros pid r Hr. exists r. split; [done | apply same_identity_refl]. Qed.

Lemma keeps_records_trans w1 w2 w3 :
  keeps_records w1 w2 → keeps_records w2 w3 → keeps_records w1 w3.
Proof.
  intros H12 H23 pid r Hr. destruct (H12 pid r Hr) as (r2 & Hr2 & Hid2).
  destruct (H23 pid r2 Hr2) as (r3 & Hr3 & Hid3). exists r3.
  split; [done | by eapply same_identity_trans].
Qed.

Lemma keeps_records_tables w w' :
  inventory w' = inventory w → keeps_records w w'.
Proof. intros Heq pid r Hr. exists r. rewrite Heq. split; [done | apply same_identity_refl]. Qed.

Lemma keeps_records_insert w pid item res mvs t u :
  (∀ r, inventory w !! pid = Some r → same_identity r item) →
  keeps_records w (mkWorld (<[pid:=item]> (inventory w)) res mvs t u).
Proof.
  intros Hid pid' r Hr. simpl. destruct (decide (pid = pid')) as [<-|Hne].
  - exists item. rewrite lookup_insert_eq. split; [done | by apply Hid].
  - exists r. rewrite lookup_insert_ne by done. split; [done | apply same_identity_refl].
Qed.

Lemma initializeInventory_keeps_records pid sk n loc w :
  keeps_records w (initializeInventory pid sk n loc w).2.
Proof.
  destruct (inventory w !! pid) as [cur|] eqn:Hpid.
  - rewrite initializeInventory_exists by done. by apply keeps_records_tables.
  - rewrite initializeInventory_new by done. simpl. apply keeps_records_insert.
    intros r Hr. congruence.
Qed.

Lemma updateStock_keeps_records pid q ty ref w :
  keeps_records w (updateStock pid q ty ref w).2.
Proof.
  destruct (inventory w !! pid) as [cur|] eqn:Hpid.
  - destruct (decide (availableStock cur + q < 0)) as [Hq|Hq].
    + rewrite (updateStock_insufficient _ _ _ _ _ cur) by done. apply keeps_records_refl.
    + rewrite (updateStock_done _ _ _ _ _ cur) by (done || lia). simpl.
      apply keeps_records_insert. intros r Hr. simplify_eq. by repeat split.
  - rewrite updateStock_missing by done. apply keeps_records_refl.
Qed.

Lemma reserveStock_keeps_records pid q oid mins w :
  keeps_records w (reserveStock pid q oid mins w).2.
Proof.
  destruct (inventory w !! pid) as [cur|] eqn:Hpid.
  - destruct (decide (availableStock cur < q)) as [Hlt|Hlt].
    + rewrite reserveStock_refused; [by apply keeps_records_tables |].
      intros cur' Hcur. by simplify_eq.
    + rewrite (reserveStock_done _ _ _ _ _ cur) by (done || lia). simpl.
      apply keeps_records_insert. intros r Hr. simplify_eq. by repeat split.
  - rewrite reserveStock_refused; [by apply keeps_records_tables |].
    intros cur' Hcur. by simplify_eq.
Qed.

Lemma confirmReservation_keeps_records rid w :
  keeps_records w (confirmReservation rid w).2.
Proof.
  destruct (reservations w !! rid) as [r|] eqn:Hrid.
  - destruct (decide (status r = ACTIVE)) as [Hst|Hst].
    + destruct (inventory w !! res_productId r) as [cur|] eqn:Hpid.
      * rewrite (confirmReservation_done _ _ r cur) by done. simpl.
        apply keeps_records_insert. intros r0 Hr0. simplify_eq. by repeat split.
      * rewrite (confirmReservation_orphan _ _ r) by done. apply keeps_records_refl.
    + rewrite (confirmReservation_inactive _ _ r) by done. apply keeps_records_refl.
  - rewrite confirmReservation_missing by done. apply keeps_records_refl.
Qed.

Lemma cancelReservation_keeps_identity rid w :
  keeps_records w (cancelReservation rid w).2.
Proof.
  destruct (reservations w !! rid) as [r|] eqn:Hrid.
  - destruct (decide (status r = ACTIVE)) as [Hst|Hst].
    + destruct (inventory w !! res_productId r) as [cur|] eqn:Hpid.
      * rewrite (cancelReservation_done _ _ r cur) by done. simpl.
        apply keeps_records_insert. intros r0 Hr0. simplify_eq. by repeat split.
      * rewrite (cancelReservation_orphan _ _ r) by done. apply keeps_records_refl.
    + rewrite (cancelReservation_inactive _ _ r) by done. apply keeps_records_refl.
  - rewrite cancelReservation_missing by done. apply keeps_records_refl.
Qed.

Lemma cancelEach_keeps_identity items w : keeps_records w (cancelEach items w).2.
Proof.
  revert w. induction items as [|r items IH]; intros w; [apply keeps_records_refl |].
  rewrite cancelEach_cons.
  eapply keeps_records_trans; [apply cancelReservation_keeps_identity | apply IH].
Qed.

Lemma cleanupExpiredReservations_keeps_identity w :
  keeps_records w (cleanupExpiredReservations w).2.
Proof.
  rewrite cleanupExpiredReservations_eq. simpl.
  eapply keeps_records_trans; [|apply cancelEach_keeps_identity].
  by apply keeps_records_tables.
Qed.

(** X5. No call deletes an inventory record, and none changes its
    [productId], [sku], [location], thresholds, [createdAt] or
    [lastRestocked]: the last is written by [initializeInventory] only, never
    by [updateStock], whatever its type. *)
Theorem inventory_records_persist req w pid r :
  inventory w !! pid = Some r →
  ∃ r', inventory (after req w) !! pid = Some r' ∧
        productId r' = productId r ∧ sku r' = sku r ∧ location r' = location r ∧
        lowStockThreshold r' = lowStockThreshold r ∧ reorderPoint r' = reorderPoint r ∧
        reorderQuantity r' = reorderQuantity r ∧ lastRestocked r' = lastRestocked r ∧
        createdAt r' = createdAt r.
Proof.
  intros Hr. cut (keeps_records w (after req w)).
  { intros Hk. destruct (Hk pid r Hr) as (r' & Hr' & Hid). by exists r'. }
  unfold after. destruct req; simpl; rewrite world_of_discarded.
  - apply initializeInventory_keeps_records.
  - apply updateStock_keeps_records.
  - apply reserveStock_keeps_records.
  - apply confirmReservation_keeps_records.
  - apply cancelReservation_keeps_identity.
  - apply cleanupExpiredReservations_keeps_identity.
Qed.

End Frames.

Section Frames2.
Context `{!Environment}.
Implicit Types (w : World).

Lemma resolves_refl r : resolves r r.
Proof. split; [by destruct r | by left]. Qed.

Lemma resolves_trans r1 r2 r3 : resolves r1 r2 → resolves r2 r3 → resolves r1 r3.
Proof.
  intros [H12 Hs12] [H23 Hs23]. split.
  - rewrite H23, H12. by destruct r1.
  - destruct Hs12 as [Hs12|Hs12]; [|by right].
    destruct Hs23 as [Hs23|Hs23]; [left; congruence | right; congruence].
Qed.

Lemma keeps_reservations_refl w : keeps_reservations w w.
Proof. intros rid r Hr. exists r. split; [done | apply resolves_refl]. Qed.

Lemma keeps_reservations_trans w1 w2 w3 :
  keeps_reservations w1 w2 → keeps_reservations w2 w3 → keeps_reservations w1 w3.
Proof.
  intros H12 H23 rid r Hr. destruct (H12 rid r Hr) as (r2 & Hr2 & Hres2).
  destruct (H23 rid r2 Hr2) as (r3 & Hr3 & Hres3). exists r3.
  split; [done | by eapply resolves_trans].
Qed.

Lemma keeps_reservations_tables w w' :
  reservations w' = reservations w → keeps_reservations w w'.
Proof. intros Heq rid r Hr. exists r. rewrite Heq. split; [done | apply resolves_refl]. Qed.

Lemma keeps_reservations_resolve w rid r s inv mvs t u :
  reservations w !! rid = Some r → status r = ACTIVE →
  keeps_reservations w (mkWorld inv (<[rid:=set_status s r]> (reservations w)) mvs t u).
Proof.
  intros Hr Hst rid' r' Hr'. simpl. destruct (decide (rid = rid')) as [<-|Hne].
  - exists (set_status s r). rewrite lookup_insert_eq. simplify_eq.
    split; [done |]. split; [done | by right].
  - exists r'. rewrite lookup_insert_ne by done. split; [done | apply resolves_refl].
Qed.

Lemma confirmReservation_keeps_reservations rid w :
  keeps_reservations w (confirmReservation rid w).2.
Proof.
  destruct (reservations w !! rid) as [r|] eqn:Hrid.
  - destruct (decide (status r = ACTIVE)) as [Hst|Hst].
    + destruct (inventory w !! res_productId r) as [cur|] eqn:Hpid.
      * rewrite (confirmReservation_done _ _ r cur) by done. simpl.
        by apply keeps_reservations_resolve.
      * rewrite (confirmReservation_orphan _ _ r) by done. apply keeps_reservations_refl.
    + rewrite (confirmReservation_inactive _ _ r) by done. apply keeps_reservations_refl.
  - rewrite confirmReservation_missing by done. apply keeps_reservations_refl.
Qed.

Lemma cancelReservation_keeps_reservations rid w :
  keeps_reservations w (cancelReservation rid w).2.
Proof.
  destruct (reservations w !! rid) as [r|] eqn:Hrid.
  - destruct (decide (status r = ACTIVE)) as [Hst|Hst].
    + destruct (inventory w !! res_productId r) as [cur|] eqn:Hpid.
      * rewrite (cancelReservation_done _ _ r cur) by done. simpl.
        by apply keeps_reservations_resolve.
      * rewrite (cancelReservation_orphan _ _ r) by done. apply keeps_reservations_refl.
    + rewrite (cancelReservation_inactive _ _ r) by done. apply keeps_reservations_refl.
  - rewrite cancelReservation_missing by done. apply keeps_reservations_refl.
Qed.

Lemma cancelEach_keeps_reservations items w :
  keeps_reservations w (cancelEach items w).2.
Proof.
  revert w. induction items as [|r items IH]; intros w; [apply keeps_reservations_refl |].
  rewrite cancelEach_cons.
  eapply keeps_reservations_trans; [apply cancelReservation_keeps_reservations | apply IH].
Qed.

Lemma reserveStock_keeps_reservations pid q oid mins w :
  reservations w !! uuid_stream (uuids w) = None →
  keeps_reservations w (reserveStock pid q oid mins w).2.
Proof.
  intros Hfresh. destruct (inventory w !! pid) as [cur|] eqn:Hpid.
  - destruct (decide (availableStock cur < q)) as [Hlt|Hlt].
    + rewrite reserveStock_refused; [by apply keeps_reservations_tables |].
      intros cur' Hcur. by simplify_eq.
    + rewrite (reserveStock_done _ _ _ _ _ cur) by (done || lia). simpl.
      intros rid r Hr. simpl. exists r. split; [|apply resolves_refl].
      rewrite lookup_insert_ne; [done | congruence].
  - rewrite reserveStock_refused; [by apply keeps_reservations_tables |].
    intros cur' Hcur. by simplify_eq.
Qed.

Lemma after_keeps_reservations req w :
  reservations w !! uuid_stream (uuids w) = None →
  keeps_reservations w (after req w).
Proof.
  intros Hfresh. unfold after.
  destruct req as [pid sk n loc|pid q ty ref|pid q oid mins|rid|rid|]; simpl;
    rewrite world_of_discarded.
  - destruct (inventory w !! pid) as [cur|] eqn:Hpid.
    + rewrite initializeInventory_exists by done. by apply keeps_reservations_tables.
    + rewrite initializeInventory_new by done. by apply keeps_reservations_tables.
  - destruct (inventory w !! pid) as [cur|] eqn:Hpid.
    + destruct (decide (availableStock cur + q < 0)) as [Hq|Hq].
      * rewrite (updateStock_insufficient _ _ _ _ _ cur) by done.
        apply keeps_reservations_refl.
      * rewrite (updateStock_done _ _ _ _ _ cur) by (done || lia).
        by apply keeps_reservations_tables.
    + rewrite updateStock_missing by done. apply keeps_reservations_refl.
  - by apply reserveStock_keeps_reservations.
  - apply confirmReservation_keeps_reservations.
  - apply cancelReservation_keeps_reservations.
  - rewrite cleanupExpiredReservations_eq. simpl.
    eapply keeps_reservations_trans; [|apply cancelEach_keeps_reservations].
    by apply keeps_reservations_tables.
Qed.

End Frames2.

Section Frames3.
Context `{!Environment}.
Hypothesis uuid_unique : Inj (=) (=) uuid_stream.
Implicit Types (w : World).

(** X6. The life of a reservation: in a reachable world no call deletes a
    stored reservation or changes any of its attributes but [status], and
    [status] changes only when it was ACTIVE.  CONFIRMED and CANCELLED are
    final.  Identifiers drawn from [uuidv4()] are assumed never to repeat. *)
Theorem reservation_lifecycle req w rid r :
  reachable w → reservations w !! rid = Some r →
  ∃ r', reservations (after req w) !! rid = Some r' ∧
        r' = set_status (status r') r ∧
        (status r' = status r ∨ status r = ACTIVE).
Proof.
  intros Hw Hr. apply (reachable_consistent uuid_unique) in Hw.
  by apply (after_keeps_reservations req w (fresh_reservation uuid_unique w Hw)).
Qed.

Lemma logs_one_grows w w' : logs_one w w' → stockMovements w ⊆ stockMovements w'.
Proof. intros (mid & mv & Hfresh & -> & _). by apply insert_subseteq. Qed.

Lemma logs_nothing_grows w w' : logs_nothing w w' → stockMovements w ⊆ stockMovements w'.
Proof. intros [-> _]. done. Qed.

Lemma after_logs req w :
  consistent w → logs_one w (after req w) ∨ logs_nothing w (after req w).
Proof.
  intros Hw. unfold after.
  destruct req as [pid sk n loc|pid q ty ref|pid q oid mins|rid|rid|]; simpl;
    rewrite world_of_discarded.
  - pose proof (initializeInventory_logs uuid_unique pid sk n loc w Hw) as Hlog.
    destruct (initializeInventory pid sk n loc w).1; auto.
  - pose proof (updateStock_logs uuid_unique pid q ty ref w Hw) as Hlog.
    destruct (updateStock pid q ty ref w).1; auto.
  - right. apply reserveStock_logs_nothing.
  - pose proof (confirmReservation_logs uuid_unique rid w Hw) as Hlog.
    destruct (confirmReservation rid w).1; auto.
  - right. apply cancelReservation_logs_nothing.
  - right. apply cleanupExpiredReservations_logs_nothing.
Qed.

(** X7. The movement log only grows: in a reachable world every movement
    stored before a call is stored unchanged after it, and a call adds at
    most one.  Identifiers drawn from [uuidv4()] are assumed never to
    repeat. *)
Theorem movement_log_is_append_only req w :
  reachable w →
  stockMovements w ⊆ stockMovements (after req w) ∧
  (size (stockMovements (after req w)) ≤ S (size (stockMovements w)))%nat.
Proof.
  intros Hw. apply (reachable_consistent uuid_unique) in Hw.
  destruct (after_logs req w Hw) as [Hone|Hnone].
  - split; [by apply logs_one_grows |].
    destruct Hone as (mid & mv & Hfresh & -> & _). by rewrite map_size_insert_None.
  - split; [by apply logs_nothing_grows |]. destruct Hnone as [-> _]. lia.
Qed.

End Frames3.

Section Frames4.
Context `{!Environment}.
Implicit Types (w : World).



Lemma cancelReservation_elsewhere rid w pid :
  (∀ r, reservations w !! rid = Some r → res_productId r ≠ pid) →
  inventory (cancelReservation rid w).2 !! pid = inventory w !! pid.
Proof.
  intros Hpid. destruct (reservations w !! rid) as [r|] eqn:Hrid.
  - destruct (decide (status r = ACTIVE)) as [Hst|Hst].
    + destruct (inventory w !! res_productId r) as [cur|] eqn:Hcur.
      * rewrite (cancelReservation_done _ _ r cur) by done. simpl.
        rewrite lookup_insert_ne; [done | by apply Hpid].
      * by rewrite (cancelReservation_orphan _ _ r).
    + by rewrite (cancelReservation_inactive _ _ r).
  - by rewrite cancelReservation_missing.
Qed.

Lemma cancelReservation_products rid w k r0 :
  reservations (cancelReservation rid w).2 !! k = Some r0 →
  ∃ r1, reservations w !! k = Some r1 ∧ res_productId r1 = res_productId r0.
Proof.
  destruct (reservations w !! rid) as [r|] eqn:Hrid.
  - destruct (decide (status r = ACTIVE)) as [Hst|Hst].
    + destruct (inventory w !! res_productId r) as [cur|] eqn:Hcur.
      * rewrite (cancelReservation_done _ _ r cur) by done. simpl.
        rewrite lookup_insert. case_decide as Hk.
        -- intros [= <-]. subst k. by exists r.
        -- intros Hr0. by exists r0.
      * rewrite (cancelReservation_orphan _ _ r) by done. intros Hr0. by exists r0.
    + rewrite (cancelReservation_inactive _ _ r) by done. intros Hr0. by exists r0.
  - rewrite cancelReservation_missing by done. intros Hr0. by exists r0.
Qed.

Lemma cancelEach_elsewhere items w pid :
  (∀ r r0, r ∈ items → reservations w !! reservationId r = Some r0 → res_productId r0 ≠ pid) →
  inventory (cancelEach items w).2 !! pid = inventory w !! pid.
Proof.
  revert w. induction items as [|r items IH]; intros w Hitems; [done |].
  rewrite cancelEach_cons. rewrite IH.
  - apply cancelReservation_elsewhere. intros r0. apply Hitems, elem_of_cons. by left.
  - intros r1 r0 Hr1 Hr0. apply cancelReservation_products in Hr0 as (r2 & Hr2 & <-).
    apply (Hitems r1 r2); [apply elem_of_cons; by right | done].
Qed.

Lemma other_products_are_untouched req w pid :
  consistent w → ¬ concerns req w pid →
  inventory (after req w) !! pid = inventory w !! pid.
Proof.
  intros Hw. unfold after, concerns.
  destruct req as [p sk n loc|p q ty ref|p q oid mins|rid|rid|]; simpl;
    rewrite world_of_discarded; intros Hpid.
  - destruct (inventory w !! p) as [cur|] eqn:Hp.
    + by rewrite initializeInventory_exists.
    + rewrite initializeInventory_new by done. simpl. by rewrite lookup_insert_ne.
  - destruct (inventory w !! p) as [cur|] eqn:Hp.
    + destruct (decide (availableStock cur + q < 0)) as [Hq|Hq].
      * by rewrite (updateStock_insufficient _ _ _ _ _ cur).
      * rewrite (updateStock_done _ _ _ _ _ cur) by (done || lia). simpl.
        by rewrite lookup_insert_ne.
    + by rewrite updateStock_missing.
  - destruct (inventory w !! p) as [cur|] eqn:Hp.
    + destruct (decide (availableStock cur < q)) as [Hlt|Hlt].
      * rewrite reserveStock_refused; [done |]. intros cur' Hcur. by simplify_eq.
      * rewrite (reserveStock_done _ _ _ _ _ cur) by (done || lia). simpl.
        by rewrite lookup_insert_ne.
    + rewrite reserveStock_refused; [done |]. intros cur' Hcur. by simplify_eq.
  - destruct (reservations w !! rid) as [r|] eqn:Hrid.
    + destruct (decide (status r = ACTIVE)) as [Hst|Hst].
      * destruct (inventory w !! res_productId r) as [cur|] eqn:Hcur.
        -- rewrite (confirmReservation_done _ _ r cur) by done. simpl.
           rewrite lookup_insert_ne; [done |]. intros Heq. apply Hpid. by exists r.
        -- by rewrite (confirmReservation_orphan _ _ r).
      * by rewrite (confirmReservation_inactive _ _ r).
    + by rewrite confirmReservation_missing.
  - apply cancelReservation_elsewhere. intros r Hr Heq. apply Hpid. by exists r.
  - rewrite cleanupExpiredReservations_eq. simpl. rewrite cancelEach_elsewhere; [done |].
    simpl. intros r r0 Hr Hr0 Heq.
    apply list_elem_of_fmap in Hr as ([k r'] & -> & Hin).
    apply elem_of_map_to_list, map_lookup_filter_Some in Hin as [Hk Hex]. simpl in *.
    destruct (reservation_sound w Hw k r' Hk) as (_ & Hid & _). rewrite Hid in Hr0.
    simplify_eq. apply Hpid. do 2 eexists. split_and!; eauto.
Qed.

End Frames4.

(** ** The read-only queries *)

Section Queries.
Context `{!Environment}.
Implicit Types (w : World).

Lemma scanned_record_iff {A} (P : string * A → Prop) `{∀ kv, Decision (P kv)}
    (m : gmap string A) x :
  x ∈ (map_to_list (filter P m)).*2 ↔ ∃ k, m !! k = Some x ∧ P (k, x).
Proof.
  rewrite list_elem_of_fmap. split.
  - intros ([k y] & -> & Hin). exists k.
    by apply elem_of_map_to_list, map_lookup_filter_Some in Hin.
  - intros (k & Hk & HP). exists (k, x). split; [done |].
    by apply elem_of_map_to_list, map_lookup_filter_Some.
Qed.

Lemma getInventoryBySku_answer s w :
  (getInventoryBySku s w).2 = w ∧
  match (getInventoryBySku s w).1 with
  | Return (Some r) => sku r = s ∧ ∃ pid, inventory w !! pid = Some r
  | Return None => ∀ pid r, inventory w !! pid = Some r → sku r ≠ s
  | Throw _ => False
  end.
Proof.
  unfold getInventoryBySku, andThen, docClient_query_inventory_by_sku, resolve. simpl.
  split; [done |].
  destruct (head _) as [r|] eqn:Hhead.
  - apply head_Some_elem_of in Hhead.
    apply scanned_record_iff in Hhead as (pid & Hpid & Hsku).
    split; [done | by exists pid].
  - apply head_None in Hhead. intros pid r Hpid Hsku.
    assert (r ∈ (map_to_list (filter (λ kv, sku kv.2 = s) (inventory w))).*2) as Hin.
    { apply scanned_record_iff. by exists pid. }
    rewrite Hhead in Hin. by apply not_elem_of_nil in Hin.
Qed.

(** X10. [getInventoryBySku] changes nothing and never throws; what it
    returns is a stored record of that sku, and it returns undefined exactly
    when no stored record has the sku. *)
Theorem getInventoryBySku_finds_a_record_of_the_sku s w :
  (getInventoryBySku s w).2 = w ∧
  match (getInventoryBySku s w).1 with
  | Return (Some r) => sku r = s ∧ ∃ pid, inventory w !! pid = Some r
  | Return None => ∀ pid r, inventory w !! pid = Some r → sku r ≠ s
  | Throw _ => False
  end.
Proof. apply getInventoryBySku_answer. Qed.

Lemma getInventoryBySku_finds_one s w pid r :
  inventory w !! pid = Some r → sku r = s →
  ∃ r', (getInventoryBySku s w).1 = Return (Some r') ∧ sku r' = s.
Proof.
  intros Hpid Hsku.
  pose proof (getInventoryBySku_answer s w) as [_ Hfind].
  destruct (getInventoryBySku s w).1 as [e|[r'|]]; [done | | ].
  - exists r'. by destruct Hfind.
  - by destruct (Hfind pid r Hpid).
Qed.

(** X11. [initializeInventory] tests the product id only: two products
    without records can be initialised with the same sku, both records are
    then stored, and [getInventoryBySku] answers with one of them. *)
Theorem initializeInventory_does_not_keep_sku_unique pid1 pid2 s n1 n2 loc1 loc2 w :
  pid1 ≠ pid2 → inventory w !! pid1 = None → inventory w !! pid2 = None →
  ∃ r1 w1 r2 w2,
    initializeInventory pid1 s n1 loc1 w = (Return r1, w1) ∧
    initializeInventory pid2 s n2 loc2 w1 = (Return r2, w2) ∧
    inventory w2 !! pid1 = Some r1 ∧ inventory w2 !! pid2 = Some r2 ∧
    sku r1 = s ∧ sku r2 = s ∧
    ∃ r, (getInventoryBySku s w2).1 = Return (Some r) ∧ sku r = s.
Proof.
  intros Hne H1 H2. rewrite initializeInventory_new by done. cbv zeta.
  eexists _, _, _, _. split; [reflexivity |].
  rewrite initializeInventory_new by (simpl; by rewrite lookup_insert_ne).
  cbv zeta. split; [reflexivity |]. split_and!.
  - simpl. by rewrite lookup_insert_ne, lookup_insert_eq.
  - simpl. by rewrite lookup_insert_eq.
  - done.
  - done.
  - eapply (getInventoryBySku_finds_one s _ pid2); [simpl; apply lookup_insert_eq | done].
Qed.

End Queries.

Section Queries2.
Context `{!Environment}.
Implicit Types (w : World).

Lemma as_initialised_tables w w' :
  inventory w' = inventory w → as_initialised w → as_initialised w'.
Proof. intros Heq Hw pid r. rewrite Heq. apply Hw. Qed.

Lemma as_initialised_insert w pid item res mvs t u :
  as_initialised w →
  productId item = pid → lowStockThreshold item = 10 → reorderPoint item = 20 →
  reorderQuantity item = 50 →
  as_initialised (mkWorld (<[pid:=item]> (inventory w)) res mvs t u).
Proof.
  intros Hw ? ? ? ? pid' r. simpl. rewrite lookup_insert. case_decide as Hd.
  - intros [= <-]. by subst.
  - apply Hw.
Qed.

Lemma cancelReservation_as_initialised rid w :
  as_initialised w → as_initialised (cancelReservation rid w).2.
Proof.
  intros Hw. destruct (reservations w !! rid) as [r|] eqn:Hrid.
  - destruct (decide (status r = ACTIVE)) as [Hst|Hst].
    + destruct (inventory w !! res_productId r) as [cur|] eqn:Hpid.
      * rewrite (cancelReservation_done _ _ r cur) by done. simpl.
        destruct (Hw _ cur Hpid) as (? & ? & ? & ?). by apply as_initialised_insert.
      * by rewrite (cancelReservation_orphan _ _ r).
    + by rewrite (cancelReservation_inactive _ _ r).
  - by rewrite cancelReservation_missing.
Qed.

Lemma cancelEach_as_initialised items w :
  as_initialised w → as_initialised (cancelEach items w).2.
Proof.
  revert w. induction items as [|r items IH]; intros w Hw; [done |].
  rewrite cancelEach_cons. by apply IH, cancelReservation_as_initialised.
Qed.

Lemma after_as_initialised req w : as_initialised w → as_initialised (after req w).
Proof.
  intros Hw. unfold after.
  destruct req as [pid sk n loc|pid q ty ref|pid q oid mins|rid|rid|]; simpl;
    rewrite world_of_discarded.
  - destruct (inventory w !! pid) as [cur|] eqn:Hpid.
    + rewrite initializeInventory_exists by done. by apply (as_initialised_tables w).
    + rewrite initializeInventory_new by done. simpl. by apply as_initialised_insert.
  - destruct (inventory w !! pid) as [cur|] eqn:Hpid.
    + destruct (decide (availableStock cur + q < 0)) as [Hq|Hq].
      * by rewrite (updateStock_insufficient _ _ _ _ _ cur).
      * rewrite (updateStock_done _ _ _ _ _ cur) by (done || lia). simpl.
        destruct (Hw _ cur Hpid) as (? & ? & ? & ?). by apply as_initialised_insert.
    + by rewrite updateStock_missing.
  - destruct (inventory w !! pid) as [cur|] eqn:Hpid.
    + destruct (decide (availableStock cur < q)) as [Hlt|Hlt].
      * rewrite reserveStock_refused; [by apply (as_initialised_tables w) |].
        intros cur' Hcur. by simplify_eq.
      * rewrite (reserveStock_done _ _ _ _ _ cur) by (done || lia). simpl.
        destruct (Hw _ cur Hpid) as (? & ? & ? & ?). by apply as_initialised_insert.
    + rewrite reserveStock_refused; [by apply (as_initialised_tables w) |].
      intros cur' Hcur. by simplify_eq.
  - destruct (reservations w !! rid) as [r|] eqn:Hrid.
    + destruct (decide (status r = ACTIVE)) as [Hst|Hst].
      * destruct (inventory w !! res_productId r) as [cur|] eqn:Hpid.
        -- rewrite (confirmReservation_done _ _ r cur) by done. simpl.
           destruct (Hw _ cur Hpid) as (? & ? & ? & ?). by apply as_initialised_insert.
        -- by rewrite (confirmReservation_orphan _ _ r).
      * by rewrite (confirmReservation_inactive _ _ r).
    + by rewrite confirmReservation_missing.
  - by apply cancelReservation_as_initialised.
  - rewrite cleanupExpiredReservations_eq. simpl. apply cancelEach_as_initialised.
    by apply (as_initialised_tables w).
Qed.

Lemma reachable_as_initialised w : reachable w → as_initialised w.
Proof.
  induction 1 as [t u | w req Hw IH Hreq].
  - intros pid r. simpl. by rewrite lookup_empty.
  - by apply after_as_initialised.
Qed.

(** X12. In a reachable world [getLowStockItems] changes nothing and lists,
    once each, exactly the records whose [availableStock] is at most 10: no
    method ever writes [lowStockThreshold], which [initializeInventory] sets
    to 10. *)
Theorem getLowStockItems_lists_stock_at_most_ten w :
  reachable w →
  ∃ items,
    getLowStockItems w = (Return items, w) ∧
    NoDup (productId <$> items) ∧
    ∀ r, r ∈ items ↔ inventory w !! productId r = Some r ∧ availableStock r ≤ 10.
Proof.
  intros Hw. apply reachable_as_initialised in Hw.
  unfold getLowStockItems, docClient_scan_inventory. eexists. split; [reflexivity |]. split.
  - assert (productId <$> (map_to_list (filter (λ kv, lowStock kv.2 = true) (inventory w))).*2
            = (map_to_list (filter (λ kv, lowStock kv.2 = true) (inventory w))).*1) as ->.
    { rewrite <- list_fmap_compose. apply list_fmap_ext. intros i [pid r] Hi. simpl.
      apply list_elem_of_lookup_2, elem_of_map_to_list, map_lookup_filter_Some in Hi as [Hr _].
      by destruct (Hw pid r Hr) as [-> _]. }
    apply NoDup_fst_map_to_list.
  - intros r. rewrite scanned_record_iff. simpl. unfold lowStock. split.
    + intros (pid & Hpid & Hlow). destruct (Hw pid r Hpid) as (-> & Hten & _).
      apply bool_decide_eq_true in Hlow. split; [done | lia].
    + intros [Hpid Hlow]. exists (productId r). split; [done |].
      destruct (Hw _ r Hpid) as (_ & Hten & _). apply bool_decide_eq_true. lia.
Qed.

End Queries2.

Section Movements.
Context `{!Environment}.
Implicit Types (w : World).

Lemma StronglySorted_take {A} (R : relation A) n (l : list A) :
  StronglySorted R l → StronglySorted R (take n l).
Proof.
  intros Hl. rewrite <- (take_drop n l) in Hl. by apply StronglySorted_app_1_l in Hl.
Qed.

Lemma net_quantity_perm l l' : l ≡ₚ l' → net_quantity l = net_quantity l'.
Proof.
  unfold net_quantity.
  induction 1 as [|x l l' Hp IH|x y l|l1 l2 l3 H12 IH12 H23 IH23]; rewrite ?fmap_cons; simpl.
  - done.
  - lia.
  - lia.
  - congruence.
Qed.

Lemma net_quantity_cons x l : net_quantity (x :: l) = mv_quantity x + net_quantity l.
Proof. reflexivity. Qed.

Lemma net_quantity_of_product pid (m : gmap string StockMovement) :
  net_quantity (map_to_list (filter (λ kv, mv_productId kv.2 = pid) m)).*2
  = sum_table (moved pid) m.
Proof.
  induction m as [|i x m Hi IH] using map_ind.
  - by rewrite map_filter_empty, map_to_list_empty, sum_table_empty.
  - rewrite sum_table_insert_fresh by done. rewrite moved_of.
    destruct (decide (mv_productId x = pid)) as [Hx|Hx].
    + rewrite map_filter_insert_True by done.
      rewrite (net_quantity_perm _ (x :: (map_to_list (filter (λ kv, mv_productId kv.2 = pid) m)).*2)).
      * by rewrite net_quantity_cons, IH.
      * rewrite map_to_list_insert; [done |]. by rewrite map_lookup_filter, Hi.
    + rewrite map_filter_insert_not'; [by rewrite IH | done |].
      intros y Hy. congruence.
Qed.

(** X13. [getStockMovements] changes nothing and returns at most [limit]
    movements (50 when [limit] is left out), all stored and all of the
    product, the most recent first; when the product has no more than [limit]
    movements it returns them all. *)
Theorem getStockMovements_lists_newest_first pid limit w :
  ∃ l,
    getStockMovements pid limit w = (Return l, w) ∧
    (length l ≤ Pos.to_nat (default 50%positive limit))%nat ∧
    StronglySorted newer l ∧
    (∀ m, m ∈ l → mv_productId m = pid ∧ ∃ mid, stockMovements w !! mid = Some m) ∧
    ((size (filter (λ kv, mv_productId kv.2 = pid) (stockMovements w))
      ≤ Pos.to_nat (default 50%positive limit))%nat →
     l ≡ₚ (map_to_list (filter (λ kv, mv_productId kv.2 = pid) (stockMovements w))).*2).
Proof.
  unfold getStockMovements, docClient_query_movements. eexists. split; [reflexivity |].
  split_and!.
  - rewrite length_take. lia.
  - apply StronglySorted_take, StronglySorted_merge_sort; apply _.
  - intros m Hm. apply subseteq_take in Hm. rewrite merge_sort_Permutation in Hm.
    apply scanned_record_iff in Hm as (mid & Hmid & Hp). split; [done | by exists mid].
  - intros Hsize. rewrite take_ge.
    + apply merge_sort_Permutation.
    + rewrite merge_sort_Permutation, length_fmap, length_map_to_list. done.
Qed.

(** X14. In a reachable world, when a product has no more than [limit]
    movements, the quantities of the movements that [getStockMovements]
    returns add up to the [totalStock] of the product.  Identifiers drawn from
    [uuidv4()] are assumed never to repeat. *)
Theorem getStockMovements_reconstructs_totalStock pid limit w r :
  Inj (=) (=) uuid_stream →
  reachable w → inventory w !! pid = Some r →
  (size (filter (λ kv, mv_productId kv.2 = pid) (stockMovements w))
   ≤ Pos.to_nat (default 50%positive limit))%nat →
  ∃ l, getStockMovements pid limit w = (Return l, w) ∧ net_quantity l = totalStock r.
Proof.
  intros Huuid Hw Hpid Hsize. apply (reachable_consistent Huuid) in Hw.
  eexists. split; [reflexivity |].
  rewrite take_ge by (by rewrite merge_sort_Permutation, length_fmap, length_map_to_list).
  rewrite (net_quantity_perm _ _ (merge_sort_Permutation _ _)).
  rewrite net_quantity_of_product, (total_is_moved w Hw pid).
  by apply counter_lookup.
Qed.

End Movements.

(** ** The handlers *)

Section Controller.
Context `{!Environment}.
Implicit Types (w : World).

Lemma handled {A} (m : Async A) (f : A → Response) w :
  tryCatch (await x <- m; resolve (f x))
    (λ error, resolve (mkResponse 400 (RejectionBody error))) w =
  match m w with
  | (Return a, w') => (Return (f a), w')
  | (Throw e, w') => (Return (mkResponse 400 (RejectionBody e)), w')
  end.
Proof. unfold tryCatch, andThen, resolve. by destruct (m w) as [[e|a] w']. Qed.


(** X16. The cancel endpoint: for an unknown reservation it answers 400
    with 'Reservation not found'; for a resolved reservation it answers 200
    and the message of its body is 'Reservation already processed', the
    [message] of the service's result replacing the handler's own; for an
    ACTIVE reservation whose product has a record it answers 200 with
    'Reservation cancelled successfully' and the reservation as read, and the
    reservation is stored CANCELLED. *)
Theorem cancel_endpoint_reports_already_processed rid w :
  match reservations w !! rid with
  | None =>
      inventoryController.cancelReservation rid w =
        (Return (mkResponse 400 (RejectionBody (Error "Reservation not found"))), w)
  | Some r =>
      if bool_decide (status r = ACTIVE)
      then
        match inventory w !! res_productId r with
        | Some cur =>
            ∃ w', inventoryController.cancelReservation rid w =
                    (Return (mkResponse 200
                               (ReceiptBody "Reservation cancelled successfully" true
                                  (Some r))), w') ∧
                  reservations w' !! rid = Some (set_status CANCELLED r)
        | None =>
            inventoryController.cancelReservation rid w =
              (Return (mkResponse 400 (RejectionBody (TypeError "availableStock"))), w)
        end
      else
        inventoryController.cancelReservation rid w =
          (Return (mkResponse 200 (ReceiptBody "Reservation already processed" true None)), w)
  end.
Proof.
  unfold inventoryController.cancelReservation. rewrite handled.
  destruct (reservations w !! rid) as [r|] eqn:Hrid.
  - case_bool_decide as Hst.
    + destruct (inventory w !! res_productId r) as [cur|] eqn:Hpid.
      * rewrite (cancelReservation_done _ _ r cur) by done. cbv zeta.
        eexists. split; [reflexivity |]. simpl. apply lookup_insert_eq.
      * by rewrite (cancelReservation_orphan _ _ r).
    + by rewrite (cancelReservation_inactive _ _ r).
  - by rewrite cancelReservation_missing.
Qed.

Lemma checkEach_eq items w :
  inventoryController.checkEach items w =
  (Return ((λ item,
     mkAvailability (chk_productId item) (chk_quantity item)
       (match inventory w !! chk_productId item with
        | Some cur => bool_decide (chk_quantity item ≤ availableStock cur)
        | None => false
        end)
       (counter availableStock (chk_productId item) w)) <$> items), w).
Proof.
  induction items as [|item items IH]; [done |].
  simpl. unfold andThen, getInventory, docClient_get_inventory. rewrite IH.
  unfold resolve, counter. by destruct (inventory w !! chk_productId item).
Qed.

(** X17. [checkStockAvailability] changes nothing and answers 200 with one
    entry per requested item, in order, that repeats the product id and the
    quantity and gives the [availableStock] of the product (0 for a product
    without a record).  An entry says [available] exactly when a call of
    [reserveStock] for that product and quantity, made in the same world,
    would return. *)
Theorem checkStockAvailability_agrees_with_reserveStock items w :
  ∃ availability,
    inventoryController.checkStockAvailability items w =
      (Return (mkResponse 200 (AvailabilityBody availability)), w) ∧
    Forall2 (λ item entry,
               av_productId entry = chk_productId item ∧
               requestedQuantity entry = chk_quantity item ∧
               av_availableStock entry = counter availableStock (chk_productId item) w ∧
               (available entry = true ↔
                ∀ orderId minutes,
                  ∃ r, (reserveStock (chk_productId item) (chk_quantity item) orderId
                          minutes w).1 = Return r))
      items availability.
Proof.
  unfold inventoryController.checkStockAvailability, tryCatch, andThen.
  rewrite checkEach_eq. eexists. split; [reflexivity |].
  apply Forall2_fmap_r, Forall_Forall2_diag, Forall_forall. intros item _. simpl.
  split_and!; [done..|].
  destruct (inventory w !! chk_productId item) as [cur|] eqn:Hpid.
  - destruct (decide (chk_quantity item ≤ availableStock cur)) as [Hq|Hq].
    + rewrite bool_decide_eq_true_2 by done. split; [|done]. intros _ oid mins.
      rewrite (reserveStock_done _ _ _ _ _ cur) by done. by eexists.
    + rewrite bool_decide_eq_false_2 by done. split; [done |]. intros Hres.
      destruct (Hres ""%string None) as [r Hr].
      rewrite reserveStock_refused in Hr; [done |]. intros cur' Hcur. simplify_eq. lia.
  - split; [done |]. intros Hres. destruct (Hres ""%string None) as [r Hr].
    rewrite reserveStock_refused in Hr; [done |]. intros cur' Hcur. by simplify_eq.
Qed.

End Controller.

(** ** More on the reachable worlds *)

Section ReachableWorlds.
Context `{!Environment}.
Hypothesis uuid_unique : Inj (=) (=) uuid_stream.
Implicit Types (w : World).

Lemma consistent_reserved_nonneg w pid r :
  consistent w → inventory w !! pid = Some r → 0 ≤ reservedStock r.
Proof.
  intros Hw Hpid. rewrite <- (counter_lookup reservedStock pid w r Hpid).
  rewrite <- (reserved_is_held w Hw pid). apply sum_table_nonneg.
  intros rid x Hx. destruct (reservation_sound w Hw rid x Hx) as (Hq & _).
  unfold held. case_bool_decide; lia.
Qed.

(** X18. A sweep of a reachable world returns the number of ACTIVE
    reservations whose [expiresAt] is before the clock reading, stores each
    of them CANCELLED and leaves every other reservation (one that expires
    exactly at the reading included) as it is; it logs no movement, and for
    every product the quantities reclaimed move from [reservedStock] to
    [availableStock], [totalStock] staying.  Identifiers drawn from
    [uuidv4()] are assumed never to repeat. *)
Theorem sweep_reclaims_every_expired_reservation w :
  reachable w →
  ∃ w',
    cleanupExpiredReservations w =
      (Return (size (filter (λ kv, expired (clock (ticks w)) kv.2 = true) (reservations w))),
       w') ∧
    (∀ rid r, reservations w !! rid = Some r →
       reservations w' !! rid =
         Some (if expired (clock (ticks w)) r then set_status CANCELLED r else r)) ∧
    (∀ rid, reservations w !! rid = None → reservations w' !! rid = None) ∧
    stockMovements w' = stockMovements w ∧
    ∀ pid r, inventory w !! pid = Some r →
      ∃ r', inventory w' !! pid = Some r' ∧
        availableStock r' = availableStock r +
          sum_table (λ x, if expired (clock (ticks w)) x then held pid x else 0)
            (reservations w) ∧
        reservedStock r' = reservedStock r -
          sum_table (λ x, if expired (clock (ticks w)) x then held pid x else 0)
            (reservations w) ∧
        totalStock r' = totalStock r.
Proof.
  intros Hw. apply (reachable_consistent uuid_unique) in Hw.
  destruct (sweep_reclaims_expired w Hw) as (Hret & Hres & Hw' & [Hmv Htot] & Hinv).
  exists (cleanupExpiredReservations w).2. split_and!.
  - rewrite <- Hret. by destruct (cleanupExpiredReservations w).
  - intros rid r Hr. by rewrite Hres, lookup_fmap, Hr.
  - intros rid Hr. by rewrite Hres, lookup_fmap, Hr.
  - done.
  - intros pid r Hpid. destruct (Hinv pid r Hpid) as (r' & Hpid' & Hav & Hre).
    exists r'. split_and!; [done..|]. specialize (Htot pid).
    by rewrite (counter_lookup _ _ _ _ Hpid), (counter_lookup _ _ _ _ Hpid') in Htot.
Qed.

(** X19. In a reachable world a reservation that a sweep reclaims stays
    CANCELLED through the next sweep, which does not select it, whatever the
    clock reads then, and does not count it; [totalStock] is the same after
    both sweeps.  Identifiers drawn from [uuidv4()] are assumed never to
    repeat. *)
Theorem expired_reservation_is_reclaimed_once w rid r :
  reachable w → reservations w !! rid = Some r → expired (clock (ticks w)) r = true →
  ∃ n1 w1 n2 w2,
    cleanupExpiredReservations w = (Return n1, w1) ∧
    cleanupExpiredReservations w1 = (Return n2, w2) ∧
    reservations w1 !! rid = Some (set_status CANCELLED r) ∧
    reservations w2 !! rid = Some (set_status CANCELLED r) ∧
    n2 = size (filter (λ kv, expired (clock (ticks w1)) kv.2 = true) (reservations w1)) ∧
    expired (clock (ticks w1)) (set_status CANCELLED r) = false ∧
    ∀ pid, counter totalStock pid w2 = counter totalStock pid w.
Proof.
  intros Hw Hr Hex. apply (reachable_consistent uuid_unique) in Hw.
  destruct (sweep_reclaims_expired w Hw) as (Hret1 & _ & Hw1 & [_ Htot1] & _).
  destruct (sweep_reclaims_expired _ Hw1) as (Hret2 & _ & _ & [_ Htot2] & _).
  destruct (reclaimed_once w rid r Hw Hr Hex) as (Hr1 & Hex1 & Hr2).
  cbv zeta in *.
  destruct (cleanupExpiredReservations w) as [o1 w1] eqn:Hrun1. simpl in *.
  destruct (cleanupExpiredReservations w1) as [o2 w2] eqn:Hrun2. simpl in *. subst o1 o2.
  eexists _, w1, _, w2. split_and!; [done..|].
  intros pid. by rewrite Htot2.
Qed.

(** X20. Calls of [reserveStock] for one product, each awaited before the
    next is made from a reachable world, are never granted more in total than
    the [availableStock] they started from, which [totalStock] bounds; what
    they are granted is what [availableStock] loses.  Identifiers drawn from
    [uuidv4()] are assumed never to repeat. *)
Theorem reserves_made_in_turn_never_oversell pid calls w cur :
  reachable w → inventory w !! pid = Some cur →
  ∃ granted w' cur',
    reserveEach pid calls w = (Return granted, w') ∧
    inventory w' !! pid = Some cur' ∧
    total_quantity granted ≤ availableStock cur ∧
    availableStock cur ≤ totalStock cur ∧
    availableStock cur' = availableStock cur - total_quantity granted ∧
    totalStock cur' = totalStock cur.
Proof.
  intros Hw Hpid. apply (reachable_consistent uuid_unique) in Hw.
  destruct (counters_balance w Hw pid cur Hpid) as [Hbal Hav].
  pose proof (consistent_reserved_nonneg w pid cur Hw Hpid) as Hre.
  destruct (sequential_reserves_do_not_oversell pid calls w cur Hpid Hav)
    as (granted & w' & cur' & Hrun & Hpid' & Hav' & Hto' & _ & Hle).
  exists granted, w', cur'. split_and!; (done || lia).
Qed.

(** X9. A call leaves the record of every product it does not concern as
    it is: [initializeInventory], [updateStock] and [reserveStock] concern
    the product they name, [confirmReservation] and [cancelReservation] the
    product of the stored reservation, and a sweep the products of the ACTIVE
    reservations past their deadline.  Identifiers drawn from [uuidv4()] are
    assumed never to repeat. *)
Theorem calls_leave_other_products_alone req w pid :
  reachable w → ¬ concerns req w pid →
  inventory (after req w) !! pid = inventory w !! pid.
Proof.
  intros Hw. apply (reachable_consistent uuid_unique) in Hw.
  by apply other_products_are_untouched.
Qed.

End ReachableWorlds.

(** ** The further properties on the concrete environment *)

Lemma reserve_holds_stock_witness :
  ∃ r w',
    @reserveStock demo_environment "p1" 5 "orderD" None (demo_run demo_requests) =
      (Return r, w') ∧
    status r = ACTIVE ∧ quantity r = 5 ∧ expiresAt r = res_createdAt r + 900000 ∧
    counter availableStock "p1" w' = 35 ∧ counter reservedStock "p1" w' = 5 ∧
    counter totalStock "p1" w' = 40.
Proof.
  destruct (@reserve_holds_stock demo_environment "p1" 5 "orderD" None
              (demo_run demo_requests) demo_record)
    as (r & item & w' & Hrun & _ & _ & _ & Hq & Hst & _ & Hex & _ & Hinv & Hav & Hre & Hto & _).
  - vm_compute; reflexivity.
  - simpl; lia.
  - exists r, w'. unfold counter. rewrite Hinv, lookup_insert_eq.
    change (availableStock demo_record) with 40 in Hav.
    change (reservedStock demo_record) with 0 in Hre.
    change (totalStock demo_record) with 40 in Hto.
    change (default 15 None) with 15 in Hex.
    cbn [from_option]. split_and!; (done || lia).
Defined.

Lemma reserve_then_cancel_restores_witness :
  ∃ r w1 receipt w2 item,
    @reserveStock demo_environment "p1" 5 "orderD" None (demo_run demo_requests) =
      (Return r, w1) ∧
    @cancelReservation demo_environment (reservationId r) w1 = (Return receipt, w2) ∧
    inventory w2 !! "p1"%string = Some item ∧
    availableStock item = 40 ∧ reservedStock item = 0 ∧ totalStock item = 40.
Proof.
  destruct (@reserve_then_cancel_restores demo_environment "p1" 5 "orderD" None
              (demo_run demo_requests) demo_record)
    as (r & w1 & receipt & w2 & item & Hrun1 & Hrun2 & _ & Hinv & Hav & Hre & Hto & _).
  - vm_compute; reflexivity.
  - simpl; lia.
  - exists r, w1, receipt, w2, item. rewrite Hinv, lookup_insert_eq. by split_and!.
Defined.

Lemma reserve_then_confirm_sells_witness :
  ∃ r w1 receipt w2 item,
    @reserveStock demo_environment "p1" 5 "orderD" None (demo_run demo_requests) =
      (Return r, w1) ∧
    @confirmReservation demo_environment (reservationId r) w1 = (Return receipt, w2) ∧
    inventory w2 !! "p1"%string = Some item ∧
    availableStock item = 35 ∧ reservedStock item = 0 ∧ totalStock item = 35.
Proof.
  destruct (@reserve_then_confirm_sells demo_environment "p1" 5 "orderD" None
              (demo_run demo_requests) demo_record)
    as (r & w1 & receipt & w2 & item & mv & Hrun1 & Hrun2 & Hinv & Hav & Hre & Hto & _).
  - vm_compute; reflexivity.
  - simpl; lia.
  - exists r, w1, receipt, w2, item. rewrite Hinv, lookup_insert_eq.
    change (availableStock demo_record) with 40 in Hav.
    change (reservedStock demo_record) with 0 in Hre.
    change (totalStock demo_record) with 40 in Hto.
    split_and!; (done || lia).
Defined.

Lemma inventory_records_persist_witness :
  ∃ r', inventory (@after demo_environment (UpdateStock "p1" 25 (Some "RESTOCK"%string) None)
                     (demo_run demo_requests)) !! "p1"%string = Some r' ∧
        productId r' = productId demo_record ∧ sku r' = sku demo_record ∧
        location r' = location demo_record ∧
        lowStockThreshold r' = lowStockThreshold demo_record ∧
        reorderPoint r' = reorderPoint demo_record ∧
        reorderQuantity r' = reorderQuantity demo_record ∧
        lastRestocked r' = lastRestocked demo_record ∧
        createdAt r' = createdAt demo_record.
Proof.
  apply (@inventory_records_persist demo_environment
           (UpdateStock "p1" 25 (Some "RESTOCK"%string) None) (demo_run demo_requests)).
  vm_compute; reflexivity.
Defined.

Lemma reservation_lifecycle_witness :
  ∃ r', reservations (@after demo_environment (CancelReservation "id-1")
                        (demo_run demo_requests)) !! "id-1"%string = Some r' ∧
        r' = set_status (status r') demo_confirmed ∧
        (status r' = status demo_confirmed ∨ status demo_confirmed = ACTIVE).
Proof.
  apply (@reservation_lifecycle demo_environment demo_uuid_unique
           (CancelReservation "id-1") (demo_run demo_requests)).
  - apply demo_run_reachable, demo_requests_in_range.
  - vm_compute; reflexivity.
Defined.

Lemma movement_log_is_append_only_witness :
  stockMovements (demo_run demo_requests)
  ⊆ stockMovements (@after demo_environment
                      (UpdateStock "p1" 25 (Some "RESTOCK"%string) None)
                      (demo_run demo_requests)) ∧
  (size (stockMovements (@after demo_environment
                           (UpdateStock "p1" 25 (Some "RESTOCK"%string) None)
                           (demo_run demo_requests)))
   ≤ S (size (stockMovements (demo_run demo_requests))))%nat.
Proof.
  apply (@movement_log_is_append_only demo_environment demo_uuid_unique).
  apply demo_run_reachable, demo_requests_in_range.
Defined.


Lemma calls_leave_other_products_alone_witness :
  inventory (@after demo_environment (UpdateStock "p1" (-20) None None)
               (demo_run two_products)) !! "p2"%string
  = inventory (demo_run two_products) !! "p2"%string.
Proof.
  apply (@calls_leave_other_products_alone demo_environment demo_uuid_unique).
  - apply demo_run_reachable. repeat constructor; simpl; lia.
  - simpl. discriminate.
Defined.

Lemma initializeInventory_does_not_keep_sku_unique_witness :
  ∃ r1 w1 r2 w2,
    @initializeInventory demo_environment "p1" "SKU1" 50 None empty_world = (Return r1, w1) ∧
    @initializeInventory demo_environment "p2" "SKU1" 7 None w1 = (Return r2, w2) ∧
    inventory w2 !! "p1"%string = Some r1 ∧ inventory w2 !! "p2"%string = Some r2 ∧
    sku r1 = "SKU1"%string ∧ sku r2 = "SKU1"%string ∧
    ∃ r, (getInventoryBySku "SKU1" w2).1 = Return (Some r) ∧ sku r = "SKU1"%string.
Proof.
  apply (@initializeInventory_does_not_keep_sku_unique demo_environment).
  - discriminate.
  - reflexivity.
  - reflexivity.
Defined.

Lemma getLowStockItems_lists_stock_at_most_ten_witness :
  ∃ items,
    getLowStockItems (demo_run two_products) = (Return items, demo_run two_products) ∧
    NoDup (productId <$> items) ∧
    ∀ r, r ∈ items ↔
         inventory (demo_run two_products) !! productId r = Some r ∧ availableStock r ≤ 10.
Proof.
  apply (@getLowStockItems_lists_stock_at_most_ten demo_environment).
  apply demo_run_reachable. repeat constructor; simpl; lia.
Defined.

Lemma getStockMovements_reconstructs_totalStock_witness :
  ∃ l, getStockMovements "p1" None (demo_run demo_requests) =
         (Return l, demo_run demo_requests) ∧
       net_quantity l = totalStock demo_record.
Proof.
  apply (@getStockMovements_reconstructs_totalStock demo_environment "p1" None
           (demo_run demo_requests) demo_record demo_uuid_unique).
  - apply demo_run_reachable, demo_requests_in_range.
  - vm_compute; reflexivity.
  - vm_compute. lia.
Defined.

Lemma sweep_reclaims_every_expired_reservation_witness :
  ∃ w',
    @cleanupExpiredReservations demo_environment stale_world = (Return 1%nat, w') ∧
    reservations w' !! "id-1"%string = Some (set_status CANCELLED stale_reservation) ∧
    stockMovements w' = stockMovements stale_world.
Proof.
  destruct (@sweep_reclaims_every_expired_reservation demo_environment demo_uuid_unique
              stale_world)
    as (w' & Hrun & Hres & _ & Hmv & _).
  - apply demo_run_reachable. repeat constructor; simpl; lia.
  - exists w'. split_and!.
    + rewrite Hrun. vm_compute. reflexivity.
    + rewrite (Hres "id-1"%string stale_reservation) by (vm_compute; reflexivity).
      reflexivity.
    + done.
Defined.

Lemma expired_reservation_is_reclaimed_once_witness :
  ∃ n1 w1 n2 w2,
    @cleanupExpiredReservations demo_environment stale_world = (Return n1, w1) ∧
    @cleanupExpiredReservations demo_environment w1 = (Return n2, w2) ∧
    reservations w1 !! "id-1"%string = Some (set_status CANCELLED stale_reservation) ∧
    reservations w2 !! "id-1"%string = Some (set_status CANCELLED stale_reservation) ∧
    n2 = size (filter (λ kv, expired (@clock demo_environment (ticks w1)) kv.2 = true)
                 (reservations w1)) ∧
    expired (@clock demo_environment (ticks w1)) (set_status CANCELLED stale_reservation)
      = false ∧
    ∀ pid, counter totalStock pid w2 = counter totalStock pid stale_world.
Proof.
  apply (@expired_reservation_is_reclaimed_once demo_environment demo_uuid_unique).
  - apply demo_run_reachable. repeat constructor; simpl; lia.
  - vm_compute; reflexivity.
  - vm_compute; reflexivity.
Defined.

Lemma reserves_made_in_turn_never_oversell_witness :
  ∃ granted w' cur',
    @reserveEach demo_environment "p1"
      [(30, "a"%string, None); (20, "b"%string, None); (10, "c"%string, None)]
      (demo_run demo_requests) = (Return granted, w') ∧
    inventory w' !! "p1"%string = Some cur' ∧
    total_quantity granted ≤ availableStock demo_record ∧
    availableStock demo_record ≤ totalStock demo_record ∧
    availableStock cur' = availableStock demo_record - total_quantity granted ∧
    totalStock cur' = totalStock demo_record.
Proof.
  apply (@reserves_made_in_turn_never_oversell demo_environment demo_uuid_unique).
  - apply demo_run_reachable, demo_requests_in_range.
  - vm_compute; reflexivity.
Defined.
